(** * Planarity constraints over a linear sequence of points

    A shallow embedding of [opencog/generate/PlanarConstraints.{h,cc}] (the
    constraint engine) and of the link-creation path of
    [opencog/generate/PlanarCallback.{h,cc}] (the construction policy),
    followed by the properties of the specification proved or refuted on it.
    The queries of the engine and the remaining operations of the policy
    are embedded after them, with the properties the code itself shows.

    Conventions.
    - [Handle] is the opaque, comparable point identity of the host
      hypergraph.  The engine only uses it as a key of [std::map], so the
      development is parametric in any countable type with decidable
      equality.
    - [size_t] is modelled by [N].  Sizes and indices of a [std::vector]
      are below [2^64] by construction, so they are the plain [N] image of
      a list length or offset; the three places where the source computes
      with them ([size() * size()], [size() - 1], [count++]) carry their
      64-bit wrap-around explicitly.
    - [std::vector<T>] is [list T]; [std::map<Handle, size_t>] is
      [gmap Handle N]. *)

From stdpp Require Import gmap strings list fin_maps sorting.
From Stdlib Require Import NArith Lia.

#[local] Open Scope N_scope.
#[local] Set Warnings "-clear-no-such-hyp".

(** ** [size_t] arithmetic *)

Definition SIZE_MODULUS : N := 2 ^ 64.

(** [a * b] in [size_t]. *)
Definition size_mul (a b : N) : N := (a * b) mod SIZE_MODULUS.

(** [a - b] in [size_t], for operands below the modulus. *)
Definition size_sub (a b : N) : N :=
  if a <? b then a + SIZE_MODULUS - b else a - b.

(** [c++] in [size_t]. *)
Definition size_incr (c : N) : N := (c + 1) mod SIZE_MODULUS.

(** ** The crossing predicate *)

(** [PlanarConstraints::links_cross]: both pairs are normalised by
    [std::swap] so that the smaller position comes first, then the two
    interleavings are tested. *)
Definition links_cross (i1 j1 i2 j2 : N) : bool :=
  let '(i1, j1) := if j1 <? i1 then (j1, i1) else (i1, j1) in
  let '(i2, j2) := if j2 <? i2 then (j2, i2) else (i2, j2) in
  ((i1 <? i2) && (i2 <? j1) && (j1 <? j2))
  || ((i2 <? i1) && (i1 <? j2) && (j2 <? j1)).

(** The crossing relation in the words of the data model: after
    normalisation, exactly one endpoint of the second link lies strictly
    inside the open interval spanned by the first link. *)
Definition strictly_inside (lo hi x : N) : bool := (lo <? x) && (x <? hi).

Definition exactly_one_inside (i1 j1 i2 j2 : N) : bool :=
  let lo := N.min i1 j1 in
  let hi := N.max i1 j1 in
  xorb (strictly_inside lo hi (N.min i2 j2))
       (strictly_inside lo hi (N.max i2 j2)).

(** The same with the shared-endpoint case excluded: the other endpoint
    has to lie strictly outside the closed interval. *)
Definition strictly_outside (lo hi x : N) : bool := (x <? lo) || (hi <? x).

Definition one_inside_one_outside (i1 j1 i2 j2 : N) : bool :=
  let lo := N.min i1 j1 in
  let hi := N.max i1 j1 in
  let a := N.min i2 j2 in
  let b := N.max i2 j2 in
  (strictly_inside lo hi a && strictly_outside lo hi b)
  || (strictly_inside lo hi b && strictly_outside lo hi a).

(** ** The constraint engine *)

(** Entries written to the diagnostics sink ([logger().warn],
    [logger().debug]). *)
Inductive log_entry : Type :=
  | Warn (msg : string)
  | Debug (msg : string).

(** The warning [is_planar_link] logs for a point it cannot find. *)
Definition point_not_found : log_entry :=
  Warn "PlanarConstraints::is_planar_link: Point not found in sequence".

Section Engine.
Context {Handle : Type} `{Countable Handle}.

(** The three private members of [class PlanarConstraints]. *)
Record PlanarConstraints : Type := mkPlanarConstraints {
  _sequence : list Handle;
  _position_map : gmap Handle N;
  _links : list (N * N)
}.

(** The state a freshly constructed engine is in. *)
Definition new_engine : PlanarConstraints :=
  mkPlanarConstraints [] ∅ [].

(** [_sequence.size()]. *)
Definition sequence_size (s : PlanarConstraints) : N :=
  N.of_nat (length (_sequence s)).

(** The loop of [update_position_map]: [_position_map[_sequence[i]] = i]
    for increasing [i], a later occurrence overwriting an earlier one. *)
Fixpoint fill_position_map (l : list Handle) (i : N) (m : gmap Handle N)
  : gmap Handle N :=
  match l with
  | [] => m
  | p :: l' => fill_position_map l' (i + 1) (<[p := i]> m)
  end.

Definition update_position_map (s : PlanarConstraints) : PlanarConstraints :=
  mkPlanarConstraints (_sequence s)
                      (fill_position_map (_sequence s) 0 ∅)
                      (_links s).

Definition clear (s : PlanarConstraints) : PlanarConstraints :=
  mkPlanarConstraints [] ∅ [].

Definition set_sequence (s : PlanarConstraints) (sequence : list Handle)
  : PlanarConstraints :=
  let s1 := mkPlanarConstraints sequence (_position_map s) (_links s) in
  let s2 := update_position_map s1 in
  mkPlanarConstraints (_sequence s2) (_position_map s2) [].

Definition append_point (s : PlanarConstraints) (point : Handle)
  : PlanarConstraints :=
  let sequence := _sequence s ++ [point] in
  mkPlanarConstraints
    sequence
    (<[point := size_sub (N.of_nat (length sequence)) 1]> (_position_map s))
    (_links s).

(** The loop of [is_planar_link] over [_links], leaving at the first
    crossing. *)
Fixpoint crosses_none (from_pos to_pos : N) (links : list (N * N)) : bool :=
  match links with
  | [] => true
  | link :: rest =>
      if links_cross from_pos to_pos link.1 link.2 then false
      else crosses_none from_pos to_pos rest
  end.

(** [is_planar_link] with what it writes to the log. *)
Definition is_planar_link_log (s : PlanarConstraints)
    (from_point to_point : Handle) : bool * list log_entry :=
  match _position_map s !! from_point, _position_map s !! to_point with
  | Some from_pos, Some to_pos =>
      (crosses_none from_pos to_pos (_links s), [])
  | _, _ =>
      (false, [point_not_found])
  end.

(** The value [is_planar_link] returns to its caller. *)
Definition is_planar_link (s : PlanarConstraints)
    (from_point to_point : Handle) : bool :=
  (is_planar_link_log s from_point to_point).1.

Definition add_link (s : PlanarConstraints) (from_point to_point : Handle)
  : bool * PlanarConstraints :=
  if negb (is_planar_link s from_point to_point) then (false, s)
  else
    match _position_map s !! from_point, _position_map s !! to_point with
    | Some from_pos, Some to_pos =>
        (true,
         mkPlanarConstraints (_sequence s) (_position_map s)
                             (_links s ++ [(from_pos, to_pos)]))
    | _, _ => (false, s)
    end.

(** The predicate handed to [std::remove_if] in [remove_link]. *)
Definition matches_link (from_pos to_pos : N) (link : N * N) : bool :=
  (N.eqb link.1 from_pos && N.eqb link.2 to_pos)
  || (N.eqb link.1 to_pos && N.eqb link.2 from_pos).

Definition remove_link (s : PlanarConstraints) (from_point to_point : Handle)
  : PlanarConstraints :=
  match _position_map s !! from_point, _position_map s !! to_point with
  | Some from_pos, Some to_pos =>
      mkPlanarConstraints
        (_sequence s) (_position_map s)
        (filter (fun link => matches_link from_pos to_pos link = false)
                (_links s))
  | _, _ => s
  end.

Definition get_link_count (s : PlanarConstraints) : N :=
  N.of_nat (length (_links s)).

(** The inner loop of [is_planar]: does link [i] cross one of the links
    [j > i]? *)
Fixpoint crosses_later (link : N * N) (later : list (N * N)) : bool :=
  match later with
  | [] => false
  | other :: rest =>
      if links_cross link.1 link.2 other.1 other.2 then true
      else crosses_later link rest
  end.

Fixpoint planar_links (links : list (N * N)) : bool :=
  match links with
  | [] => true
  | link :: later =>
      if crosses_later link later then false else planar_links later
  end.

Definition is_planar (s : PlanarConstraints) : bool :=
  planar_links (_links s).

(** The two loops of [get_crossing_count], threading [count]. *)
Fixpoint count_later (link : N * N) (later : list (N * N)) (count : N) : N :=
  match later with
  | [] => count
  | other :: rest =>
      count_later link rest
        (if links_cross link.1 link.2 other.1 other.2
         then size_incr count else count)
  end.

Fixpoint count_links (links : list (N * N)) (count : N) : N :=
  match links with
  | [] => count
  | link :: later => count_links later (count_later link later count)
  end.

Definition get_crossing_count (s : PlanarConstraints) : N :=
  count_links (_links s) 0.

(** [std::swap(_sequence[i], _sequence[i + 1])].  The source only
    executes it for [i + 1 < size()]; outside that range (undefined
    behaviour in C++) the list is left as it is. *)
Definition swap_adjacent (l : list Handle) (i : nat) : list Handle :=
  match l !! i, l !! S i with
  | Some a, Some b => <[i := b]> (<[S i := a]> l)
  | _, _ => l
  end.

Definition swap_points (s : PlanarConstraints) (i : N) : PlanarConstraints :=
  update_position_map
    (mkPlanarConstraints (swap_adjacent (_sequence s) (N.to_nat i))
                         (_position_map s) (_links s)).

(** The [for] loop of [optimize_sequence], from index [i] with [todo]
    iterations left; it returns the engine, [current_crossings] and
    [improved].  The source tests [i < _sequence.size() - 1] before each
    iteration; a swap keeps the size (see [swap_points_sequence_size]
    below), so the number of iterations is fixed on entry. *)
Fixpoint sweep (todo : nat) (i : N) (s : PlanarConstraints)
    (current_crossings : N) (improved : bool)
  : PlanarConstraints * N * bool :=
  match todo with
  | O => (s, current_crossings, improved)
  | S todo' =>
      let s1 := swap_points s i in
      let new_crossings := get_crossing_count s1 in
      if new_crossings <? current_crossings
      then sweep todo' (i + 1) s1 new_crossings true
      else sweep todo' (i + 1) (swap_points s1 i) current_crossings improved
  end.

(** The [while] loop of [optimize_sequence].  [fuel] bounds the number
    of passes the model may take; [None] means it ran out.  The result
    carries [iteration], the number of passes the source logs. *)
Fixpoint optimize_loop (fuel : nat) (max_iterations : N)
    (improved : bool) (iteration : N) (s : PlanarConstraints)
  : option (PlanarConstraints * N) :=
  if improved && (iteration <? max_iterations) then
    match fuel with
    | O => None
    | S fuel' =>
        let iteration := size_incr iteration in
        let current_crossings := get_crossing_count s in
        let '(s', _, improved') :=
          sweep (N.to_nat (size_sub (sequence_size s) 1)) 0 s current_crossings false
        in
        optimize_loop fuel' max_iterations improved' iteration s'
    end
  else Some (s, iteration).

Definition max_iterations (s : PlanarConstraints) : N :=
  size_mul (sequence_size s) (sequence_size s).

Definition optimize_sequence_passes (fuel : nat) (s : PlanarConstraints)
  : option (PlanarConstraints * N) :=
  optimize_loop fuel (max_iterations s) true 0 s.

(** [optimize_sequence] as a state transformer: [max_iterations] passes
    always suffice (see [optimize_loop_enough_fuel] below), so the
    fall-back branch is never taken. *)
Definition optimize_sequence (s : PlanarConstraints) : PlanarConstraints :=
  match optimize_sequence_passes (N.to_nat (max_iterations s)) s with
  | Some (s', _) => s'
  | None => s
  end.

(** *** Sequences of public operations *)

Inductive operation : Type :=
  | Clear
  | SetSequence (sequence : list Handle)
  | AppendPoint (point : Handle)
  | AddLink (from_point to_point : Handle)
  | RemoveLink (from_point to_point : Handle)
  | OptimizeSequence.

Definition perform (s : PlanarConstraints) (o : operation)
  : PlanarConstraints :=
  match o with
  | Clear => clear s
  | SetSequence sequence => set_sequence s sequence
  | AppendPoint point => append_point s point
  | AddLink from_point to_point => (add_link s from_point to_point).2
  | RemoveLink from_point to_point => remove_link s from_point to_point
  | OptimizeSequence => optimize_sequence s
  end.

(** The engine after the calls [ops], issued in order on a cleared
    engine. *)
Definition run (ops : list operation) : PlanarConstraints :=
  foldl perform (clear new_engine) ops.

(** The representation invariant of the position index: it is the one
    [update_position_map] computes from the sequence. *)
Definition index_consistent (s : PlanarConstraints) : Prop :=
  _position_map s = fill_position_map (_sequence s) 0 ∅.

End Engine.

Arguments PlanarConstraints Handle {_ _}.
Arguments operation Handle : clear implicits.

(** ** The construction policy: link creation *)

Section Policy.
Context {Handle : Type} `{Countable Handle}.

(** The members of [class PlanarCallback] that [make_link] reads or
    writes. *)
Record PlanarCallback : Type := mkPlanarCallback {
  _constraints : PlanarConstraints Handle;
  _current_sequence : list Handle;
  _strict_planarity : bool;
  _auto_optimize : bool
}.

(** The external collaborators.  [_base_callback] may be null ([None]);
    a link handle may be [Handle::UNDEFINED] ([None]). *)
Variable base_make_link :
  option (Handle -> Handle -> Handle -> Handle -> option Handle).
(** [_work_as->add_link(EVALUATION_LINK, from_con, to_con)]. *)
Variable work_as_add_link : Handle -> Handle -> option Handle.

Definition is_connection_planar (cb : PlanarCallback)
    (from_pnt to_pnt : Handle) : bool :=
  is_planar_link (_constraints cb) from_pnt to_pnt.

(** The materialisation step of [make_link]. *)
Definition materialize (from_con to_con from_pnt to_pnt : Handle)
  : option Handle :=
  match base_make_link with
  | Some base => base from_con to_con from_pnt to_pnt
  | None => work_as_add_link from_con to_con
  end.

(** [PlanarCallback::make_link]; the messages it logs are left out. *)
Definition make_link (cb : PlanarCallback)
    (from_con to_con from_pnt to_pnt : Handle)
  : option Handle * PlanarCallback :=
  if negb (is_connection_planar cb from_pnt to_pnt) && _strict_planarity cb
  then (None, cb)
  else
    let constraints := (add_link (_constraints cb) from_pnt to_pnt).2 in
    let link := materialize from_con to_con from_pnt to_pnt in
    if _auto_optimize cb && (0 <? get_crossing_count constraints) then
      let constraints := optimize_sequence constraints in
      (link,
       mkPlanarCallback constraints (_sequence constraints)
                        (_strict_planarity cb) (_auto_optimize cb))
    else
      (link,
       mkPlanarCallback constraints (_current_sequence cb)
                        (_strict_planarity cb) (_auto_optimize cb)).

End Policy.

Arguments PlanarCallback Handle {_ _}.

(** ** The constraint engine: queries *)

(** [static_cast<int>(x)] for a [size_t] [x], with [int] the 32-bit two's
    complement type: the value is reduced modulo [2^32] into
    [-2^31 .. 2^31 - 1]. *)
Definition to_int (x : N) : Z :=
  let r := (Z.of_N x mod 2 ^ 32)%Z in
  if (r <? 2 ^ 31)%Z then r else (r - 2 ^ 32)%Z.

(** [std::unique]: of every run of equal neighbours the first is kept. *)
Fixpoint unique {A : Type} `{EqDecision A} (l : list A) : list A :=
  match l with
  | [] => []
  | x :: rest =>
      match rest with
      | [] => [x]
      | y :: _ => if decide (x = y) then unique rest else x :: unique rest
      end
  end.

Section EngineQueries.
Context {Handle : Type} `{Countable Handle}.

(** [operator<] of [Handle], the order [std::sort] uses. *)
Context (handle_lt : Handle -> Handle -> Prop) `{!RelDecision handle_lt}.

(** [PlanarConstraints::get_position]. *)
Definition get_position (s : PlanarConstraints Handle) (point : Handle) : Z :=
  match _position_map s !! point with
  | Some pos => to_int pos
  | None => (-1)%Z
  end.

(** [operator<] of [std::pair<Handle, Handle>]. *)
Definition pair_lt (a b : Handle * Handle) : Prop :=
  handle_lt a.1 b.1 \/ (~ handle_lt b.1 a.1 /\ handle_lt a.2 b.2).

#[local] Instance pair_lt_dec : RelDecision pair_lt.
Proof. intros a b. unfold pair_lt. apply _. Defined.

(** [std::make_pair(_sequence[link.first], _sequence[link.second])];
    [None] stands for a read past the end of [_sequence], which is
    undefined behaviour in the source. *)
Definition resolve_link (sequence : list Handle) (link : N * N)
  : option (Handle * Handle) :=
  match sequence !! N.to_nat link.1, sequence !! N.to_nat link.2 with
  | Some a, Some b => Some (a, b)
  | _, _ => None
  end.

(** The inner loop of [get_crossing_links], pushing onto
    [crossing_links]. *)
Fixpoint collect_later (sequence : list Handle) (link : N * N)
    (later : list (N * N)) (crossing_links : list (Handle * Handle))
  : option (list (Handle * Handle)) :=
  match later with
  | [] => Some crossing_links
  | other :: rest =>
      if links_cross link.1 link.2 other.1 other.2 then
        match resolve_link sequence link, resolve_link sequence other with
        | Some a, Some b =>
            collect_later sequence link rest (crossing_links ++ [a; b])
        | _, _ => None
        end
      else collect_later sequence link rest crossing_links
  end.

Fixpoint collect_links (sequence : list Handle) (links : list (N * N))
    (crossing_links : list (Handle * Handle))
  : option (list (Handle * Handle)) :=
  match links with
  | [] => Some crossing_links
  | link :: later =>
      match collect_later sequence link later crossing_links with
      | Some crossing_links => collect_links sequence later crossing_links
      | None => None
      end
  end.

(** [PlanarConstraints::get_crossing_links]: collect, [std::sort], then
    [std::unique] and [erase]. *)
Definition get_crossing_links (s : PlanarConstraints Handle)
  : option (list (Handle * Handle)) :=
  match collect_links (_sequence s) (_links s) [] with
  | Some crossing_links => Some (unique (merge_sort pair_lt crossing_links))
  | None => None
  end.

(** Every stored position is an offset into the sequence. *)
Definition links_in_range (s : PlanarConstraints Handle) : Prop :=
  Forall (fun link : N * N =>
            link.1 < sequence_size s /\ link.2 < sequence_size s)
         (_links s).

End EngineQueries.

(** ** The construction policy: the other operations *)

Section PolicyOperations.
Context {Handle : Type} `{Countable Handle}.

(** What the policy reads of an atom: whether its type is
    [SECTION_LINK], and its outgoing set. *)
Variable is_section_link : Handle -> bool.
Variable getOutgoingSet : Handle -> list Handle.

(** The collaborators of [make_link], as before. *)
Variable base_make_link :
  option (Handle -> Handle -> Handle -> Handle -> option Handle).
Variable work_as_add_link : Handle -> Handle -> option Handle.

(** The state both constructors leave the policy in. *)
Definition new_policy : PlanarCallback Handle :=
  mkPlanarCallback new_engine [] true true.

Definition set_strict_planarity (cb : PlanarCallback Handle) (strict : bool)
  : PlanarCallback Handle :=
  mkPlanarCallback (_constraints cb) (_current_sequence cb)
                   strict (_auto_optimize cb).

Definition set_auto_optimize (cb : PlanarCallback Handle) (optimize : bool)
  : PlanarCallback Handle :=
  mkPlanarCallback (_constraints cb) (_current_sequence cb)
                   (_strict_planarity cb) optimize.

Definition set_initial_sequence (cb : PlanarCallback Handle)
    (sequence : list Handle) : PlanarCallback Handle :=
  mkPlanarCallback (set_sequence (_constraints cb) sequence) sequence
                   (_strict_planarity cb) (_auto_optimize cb).

(** [PlanarCallback::clear]; the working atomspace it records and the
    call forwarded to the base callback belong to the collaborators. *)
Definition PlanarCallback_clear (cb : PlanarCallback Handle)
  : PlanarCallback Handle :=
  mkPlanarCallback (clear (_constraints cb)) []
                   (_strict_planarity cb) (_auto_optimize cb).

(** [extract_points_from_section]; the argument is [None] for
    [Handle::UNDEFINED], and the resulting [HandleSet], which holds at
    most one point, is listed in iteration order. *)
Definition extract_points_from_section (section : option Handle)
  : list Handle :=
  match section with
  | None => []
  | Some sect =>
      if is_section_link sect then
        match getOutgoingSet sect with
        | [] => []
        | point :: _ => [point]
        end
      else [sect]
  end.

Definition is_absent (cb : PlanarCallback Handle) (point : Handle) : bool :=
  (get_position (_constraints cb) point =? -1)%Z.

(** The body of the loop of [ensure_points_in_sequence]. *)
Definition ensure_point (cb : PlanarCallback Handle) (point : Handle)
  : PlanarCallback Handle :=
  if is_absent cb point then
    match _current_sequence cb with
    | [] =>
        mkPlanarCallback (append_point (_constraints cb) point)
                         (_current_sequence cb ++ [point])
                         (_strict_planarity cb) (_auto_optimize cb)
    | _ :: _ =>
        mkPlanarCallback (append_point (_constraints cb) point)
                         (_current_sequence cb ++ [point])
                         (_strict_planarity cb) (_auto_optimize cb)
    end
  else cb.

(** [ensure_points_in_sequence]; [points] lists the [HandleSet] in
    iteration order. *)
Definition ensure_points_in_sequence (cb : PlanarCallback Handle)
    (points : list Handle) : PlanarCallback Handle :=
  foldl ensure_point cb points.

(** [PlanarCallback::root_set], without the call forwarded to the base
    callback. *)
Definition root_set (cb : PlanarCallback Handle) (points : list Handle)
  : PlanarCallback Handle :=
  ensure_points_in_sequence cb points.

(** The part of [PlanarCallback::select] that follows the collaborator's
    answer [selected]. *)
Definition select_filter (cb : PlanarCallback Handle)
    (selected from_sect : option Handle)
  : option Handle * PlanarCallback Handle :=
  match selected with
  | Some _ =>
      let from_points := extract_points_from_section from_sect in
      let to_points := extract_points_from_section selected in
      let cb1 := ensure_points_in_sequence cb from_points in
      let cb2 := ensure_points_in_sequence cb1 to_points in
      match from_points, to_points with
      | from_pnt :: _, to_pnt :: _ =>
          if negb (is_connection_planar cb2 from_pnt to_pnt) then
            if _strict_planarity cb2 then (None, cb2) else (selected, cb2)
          else (selected, cb2)
      | _, _ => (selected, cb2)
      end
  | None => (selected, cb)
  end.

(** [PlanarCallback::select].  The base callback, when there is one,
    answers first; otherwise the first dictionary section for [to_con]
    is taken, if the dictionary is set and has one. *)
Definition select {OdoFrame : Type}
    (base_select :
       option (OdoFrame -> option Handle -> N -> Handle -> option Handle))
    (dict_sections : option (Handle -> list (option Handle)))
    (cb : PlanarCallback Handle)
    (frame : OdoFrame) (from_sect : option Handle) (offset : N)
    (to_con : Handle) : option Handle * PlanarCallback Handle :=
  let selected :=
    match base_select with
    | Some base => base frame from_sect offset to_con
    | None =>
        match dict_sections with
        | Some sections =>
            match sections to_con with
            | [] => None
            | first :: _ => first
            end
        | None => None
        end
    end in
  select_filter cb selected from_sect.

(** [find_best_insertion_position]. *)
Definition find_best_insertion_position (cb : PlanarCallback Handle)
    (point connected_point : Handle) : N :=
  let connected_pos := get_position (_constraints cb) connected_point in
  if (0 <=? connected_pos)%Z then Z.to_N connected_pos + 1
  else N.of_nat (length (_current_sequence cb)).

(** *** Sequences of policy operations *)

(** A call of [select] is recorded with the answer [selected] its
    collaborator gave. *)
Inductive policy_operation : Type :=
  | SetStrictPlanarity (strict : bool)
  | SetAutoOptimize (optimize : bool)
  | SetInitialSequence (sequence : list Handle)
  | PolicyClear
  | RootSet (points : list Handle)
  | Select (selected from_sect : option Handle)
  | MakeLink (from_con to_con from_pnt to_pnt : Handle).

Definition policy_perform (cb : PlanarCallback Handle) (o : policy_operation)
  : PlanarCallback Handle :=
  match o with
  | SetStrictPlanarity strict => set_strict_planarity cb strict
  | SetAutoOptimize optimize => set_auto_optimize cb optimize
  | SetInitialSequence sequence => set_initial_sequence cb sequence
  | PolicyClear => PlanarCallback_clear cb
  | RootSet points => root_set cb points
  | Select selected from_sect => (select_filter cb selected from_sect).2
  | MakeLink from_con to_con from_pnt to_pnt =>
      (make_link base_make_link work_as_add_link cb
                 from_con to_con from_pnt to_pnt).2
  end.

(** The policy after the calls [ops], issued in order on a freshly
    constructed policy. *)
Definition policy_run (ops : list policy_operation) : PlanarCallback Handle :=
  foldl policy_perform new_policy ops.

End PolicyOperations.

Arguments policy_operation Handle : clear implicits.

(** ** Concrete points for the scenarios *)

Section ScenarioPoints.
#[local] Open Scope string_scope.

(** The sequence [A, B, C, D] carrying the link A-C. *)
Definition abcd_with_ac : PlanarConstraints string :=
  run [SetSequence ["A"; "B"; "C"; "D"]; AddLink "A" "C"].

(** A lenient policy, without auto-optimisation, on top of it. *)
Definition lenient_policy : PlanarCallback string :=
  mkPlanarCallback abcd_with_ac ["A"; "B"; "C"; "D"] false false.

(** The default materialisation, returning one fixed link atom. *)
Definition evaluation_link (from_con to_con : string) : option string :=
  Some "EvaluationLink".

(** A record no call sequence produces: the index disagrees with the
    sequence. *)
Definition stale_index : PlanarConstraints string :=
  mkPlanarConstraints ["A"; "B"] ∅ [].

(** Atoms that are plain points: none is a Section. *)
Definition no_section (atom : string) : bool := false.

Definition no_outgoing (atom : string) : list string := [].

(** The calls that lead a freshly constructed (strict) policy to the
    sequence [A, B, C, D] with the link A-C. *)
Definition strict_calls : list (policy_operation string) :=
  [SetInitialSequence ["A"; "B"; "C"; "D"]; MakeLink "A+" "C-" "A" "C"].

Definition strict_policy : PlanarCallback string :=
  policy_run no_section no_outgoing None evaluation_link strict_calls.

(** [operator<] on the concrete points. *)
Definition string_lt (a b : string) : Prop := String.ltb a b = true.

#[global] Instance string_lt_dec : RelDecision string_lt.
Proof. intros a b. unfold string_lt. apply _. Defined.

(** A record holding the crossing pair A-C, B-D, which no call sequence
    produces. *)
Definition crossing_record : PlanarConstraints string :=
  mkPlanarConstraints ["A"; "B"; "C"; "D"]
                      (fill_position_map ["A"; "B"; "C"; "D"] 0 ∅)
                      [(1, 3); (0, 2); (3, 1)].

(** A lenient policy over [A, B, C, D, E] with the link A-C, then the
    crossing link B-D created through [make_link], then strict mode
    switched back on. *)
Definition after_lenient_crossing : PlanarCallback string :=
  policy_run no_section no_outgoing None evaluation_link
    [SetInitialSequence ["A"; "B"; "C"; "D"; "E"];
     SetAutoOptimize false;
     MakeLink "A+" "C-" "A" "C";
     SetStrictPlanarity false;
     MakeLink "B+" "D-" "B" "D";
     SetStrictPlanarity true].

End ScenarioPoints.

(** ** Properties of the crossing predicate *)

Ltac cross_cases :=
  repeat match goal with
    | |- context [N.ltb ?a ?b] => destruct (N.ltb_spec a b)
    | H : context [N.ltb ?a ?b] |- _ => destruct (N.ltb_spec a b)
    end;
  simpl in *.

Lemma links_cross_interleave (i1 j1 i2 j2 : N) :
  links_cross i1 j1 i2 j2 = true <->
  (N.min i1 j1 < N.min i2 j2 /\ N.min i2 j2 < N.max i1 j1
   /\ N.max i1 j1 < N.max i2 j2)
  \/ (N.min i2 j2 < N.min i1 j1 /\ N.min i1 j1 < N.max i2 j2
      /\ N.max i2 j2 < N.max i1 j1).
Proof.
  unfold links_cross. cross_cases; split; intros Hc; try discriminate;
    try reflexivity; lia.
Qed.

(** Swapping the two links does not change the verdict. *)
Lemma links_cross_sym (i1 j1 i2 j2 : N) :
  links_cross i1 j1 i2 j2 = links_cross i2 j2 i1 j1.
Proof.
  apply eq_true_iff_eq. rewrite !links_cross_interleave. tauto.
Qed.

(** Crossing symmetry of the testable properties: the direction of either
    link is irrelevant. *)
Lemma links_cross_flip_first (a b c d : N) :
  links_cross a b c d = links_cross b a c d.
Proof.
  apply eq_true_iff_eq. rewrite !links_cross_interleave.
  rewrite (N.min_comm b a), (N.max_comm b a). tauto.
Qed.

Lemma links_cross_flip_second (a b c d : N) :
  links_cross a b c d = links_cross a b d c.
Proof.
  rewrite (links_cross_sym a b c d), (links_cross_sym a b d c).
  apply links_cross_flip_first.
Qed.

(** C2 (as amended): [links_cross] holds exactly when, after normalising
    each pair so that its smaller position comes first, [i1 < i2 < j1 < j2]
    or [i2 < i1 < j2 < j1]; equivalently, when one endpoint of the second
    link lies strictly inside the interval spanned by the first link and
    the other lies strictly outside it. *)
Theorem links_cross_characterisation (i1 j1 i2 j2 : N) :
  (links_cross i1 j1 i2 j2 = true <->
   (N.min i1 j1 < N.min i2 j2 < N.max i1 j1
    /\ N.max i1 j1 < N.max i2 j2)
   \/ (N.min i2 j2 < N.min i1 j1 < N.max i2 j2
       /\ N.max i2 j2 < N.max i1 j1))
  /\ links_cross i1 j1 i2 j2 = one_inside_one_outside i1 j1 i2 j2.
Proof.
  split.
  - rewrite links_cross_interleave. tauto.
  - apply eq_true_iff_eq. rewrite links_cross_interleave.
    unfold one_inside_one_outside, strictly_inside, strictly_outside.
    cross_cases; split; intros Hc; try discriminate; try reflexivity; lia.
Qed.

(** C2 (as stated) fails when the two links share their right endpoint:
    for the links (0,2) and (1,2) exactly one endpoint of the second, 1,
    is strictly inside (0,2), yet the code reports no crossing. *)
Lemma exactly_one_inside_not_links_cross :
  exactly_one_inside 0 2 1 2 = true /\ links_cross 0 2 1 2 = false
  /\ ~ (links_cross 0 2 1 2 = true <-> exactly_one_inside 0 2 1 2 = true).
Proof.
  split; [reflexivity|]. split; [reflexivity|].
  intros [_ Hc]. specialize (Hc eq_refl). discriminate Hc.
Qed.

(** C10: a link never crosses itself, and a self-loop never crosses
    anything, whichever argument position it is passed in. *)
Theorem links_cross_irreflexive_and_self_loops (a b c d : N) :
  links_cross a b a b = false
  /\ links_cross a a c d = false
  /\ links_cross c d a a = false.
Proof.
  repeat split; apply not_true_is_false; rewrite links_cross_interleave; lia.
Qed.

(** ** Properties of the constraint engine *)

Section EngineProperties.
Context {Handle : Type} `{Countable Handle}.
Implicit Types (s : PlanarConstraints Handle) (l pts : list Handle)
  (m : gmap Handle N) (p q : Handle) (links : list (N * N)).

(** *** The position index *)

Lemma fill_position_map_app l1 l2 (i : N) m :
  fill_position_map (l1 ++ l2) i m
  = fill_position_map l2 (i + N.of_nat (length l1))
                      (fill_position_map l1 i m).
Proof.
  revert i m. induction l1 as [|a l1 IH]; intros i m; simpl.
  - by rewrite N.add_0_r.
  - rewrite IH. f_equal. lia.
Qed.

Lemma fill_position_map_absent l (i : N) m p :
  p ∉ l -> fill_position_map l i m !! p = m !! p.
Proof.
  revert i m. induction l as [|a l IH]; intros i m Hp; simpl; [done|].
  apply not_elem_of_cons in Hp as [Hne Hp].
  rewrite IH by done. by rewrite lookup_insert_ne.
Qed.

Lemma fill_position_map_offset l (i : N) m p (j : nat) :
  NoDup l -> l !! j = Some p ->
  fill_position_map l i m !! p = Some (i + N.of_nat j).
Proof.
  revert i m j. induction l as [|a l IH]; intros i m j Hnd Hj; [done|].
  apply NoDup_cons in Hnd as [Ha Hnd]. destruct j as [|j]; simpl in *.
  - injection Hj as ->. rewrite fill_position_map_absent by done.
    rewrite lookup_insert_eq. f_equal. lia.
  - rewrite (IH _ _ j) by done. f_equal. lia.
Qed.

(** C8: on a duplicate-free list, [set_sequence] installs the list as
    the sequence, makes the position index map exactly each point of
    the list to its offset, and empties the link set. *)
Theorem set_sequence_replaces_everything s pts :
  NoDup pts ->
  _sequence (set_sequence s pts) = pts
  /\ (forall p (i : N),
        _position_map (set_sequence s pts) !! p = Some i
        <-> pts !! N.to_nat i = Some p)
  /\ _links (set_sequence s pts) = [].
Proof.
  intros Hnd. split; [done|]. split; [|done].
  intros p i. simpl. split.
  - intros Hp. destruct (decide (p ∈ pts)) as [Hin|Hout].
    + apply list_elem_of_lookup in Hin as [j Hj].
      rewrite (fill_position_map_offset _ _ _ _ j) in Hp by done.
      injection Hp as <-. by rewrite N.add_0_l, Nat2N.id.
    + rewrite fill_position_map_absent in Hp by done.
      by rewrite lookup_empty in Hp.
  - intros Hi. rewrite (fill_position_map_offset _ _ _ _ (N.to_nat i))
      by done. f_equal. lia.
Qed.

(** *** Adding a link *)

(** C1: [add_link] returns true exactly when [is_planar_link] holds at
    the time of the call; it then appends exactly one position pair
    (the positions of the two points) and touches nothing else; when it
    returns false the whole state is as before. *)
Theorem add_link_iff_is_planar_link s p q :
  ((add_link s p q).1 = true <-> is_planar_link s p q = true)
  /\ ((add_link s p q).1 = true ->
      exists from_pos to_pos,
        _position_map s !! p = Some from_pos
        /\ _position_map s !! q = Some to_pos
        /\ _links (add_link s p q).2 = _links s ++ [(from_pos, to_pos)]
        /\ _sequence (add_link s p q).2 = _sequence s
        /\ _position_map (add_link s p q).2 = _position_map s)
  /\ ((add_link s p q).1 = false -> (add_link s p q).2 = s).
Proof.
  unfold add_link, is_planar_link, is_planar_link_log.
  destruct (_position_map s !! p) as [from_pos|] eqn:Hp;
    destruct (_position_map s !! q) as [to_pos|] eqn:Hq; simpl;
    try (split; [split; intros; discriminate|split; [discriminate|done]]).
  destruct (crosses_none from_pos to_pos (_links s)); simpl.
  - split; [done|]. split; [|discriminate].
    intros _. by exists from_pos, to_pos.
  - split; [done|]. split; [discriminate|done].
Qed.

(** *** Planarity of the link set *)

Lemma crosses_later_app (link : N * N) links1 links2 :
  crosses_later link (links1 ++ links2)
  = crosses_later link links1 || crosses_later link links2.
Proof.
  induction links1 as [|other links1 IH]; simpl; [done|].
  by destruct (links_cross _ _ _ _).
Qed.

Lemma planar_links_snoc links (link : N * N) :
  planar_links (links ++ [link])
  = planar_links links && crosses_none link.1 link.2 links.
Proof.
  induction links as [|other links IH]; simpl; [done|].
  rewrite crosses_later_app, IH. simpl.
  rewrite (links_cross_sym link.1 link.2 other.1 other.2).
  destruct (crosses_later other links), (links_cross _ _ _ _),
    (planar_links links), (crosses_none _ _ _); done.
Qed.

Lemma crosses_later_filter (P : N * N -> Prop) `{!∀ x, Decision (P x)}
    (link : N * N) links :
  crosses_later link links = false ->
  crosses_later link (filter P links) = false.
Proof.
  induction links as [|other links IH]; simpl; [done|].
  destruct (links_cross _ _ _ _) eqn:Hc; [done|]. intros Hl.
  rewrite filter_cons. destruct (decide (P other)); simpl; [|by apply IH].
  rewrite Hc. by apply IH.
Qed.

Lemma planar_links_filter (P : N * N -> Prop) `{!∀ x, Decision (P x)}
    links :
  planar_links links = true -> planar_links (filter P links) = true.
Proof.
  induction links as [|link links IH]; simpl; [done|].
  destruct (crosses_later link links) eqn:Hc; [done|]. intros Hl.
  rewrite filter_cons. destruct (decide (P link)); simpl; [|by apply IH].
  rewrite (crosses_later_filter P) by done. by apply IH.
Qed.

Lemma count_later_none (link : N * N) links (count : N) :
  crosses_later link links = false -> count_later link links count = count.
Proof.
  revert count. induction links as [|other links IH]; intros count; simpl;
    [done|].
  destruct (links_cross _ _ _ _); [done|]. apply IH.
Qed.

Lemma count_links_planar links (count : N) :
  planar_links links = true -> count_links links count = count.
Proof.
  revert count. induction links as [|link links IH]; intros count; simpl;
    [done|].
  destruct (crosses_later link links) eqn:Hc; [done|]. intros Hl.
  rewrite count_later_none by done. by apply IH.
Qed.

(** C9: a successful [add_link] leaves the verdict of [is_planar] as it
    was immediately before the call. *)
Theorem add_link_preserves_is_planar s p q :
  (add_link s p q).1 = true ->
  is_planar (add_link s p q).2 = is_planar s.
Proof.
  unfold add_link, is_planar_link, is_planar_link_log, is_planar.
  destruct (_position_map s !! p) as [from_pos|];
    destruct (_position_map s !! q) as [to_pos|]; simpl; try discriminate.
  destruct (crosses_none from_pos to_pos (_links s)) eqn:Hc; simpl;
    [intros _|discriminate].
  rewrite planar_links_snoc. simpl. rewrite Hc. apply andb_true_r.
Qed.

(** *** The reordering heuristic *)

Lemma swap_adjacent_involutive l (i : nat) :
  swap_adjacent (swap_adjacent l i) i = l.
Proof.
  unfold swap_adjacent.
  destruct (l !! i) as [a|] eqn:Ha; [|by rewrite Ha].
  destruct (l !! S i) as [b|] eqn:Hb; [|by rewrite Ha, Hb].
  pose proof (lookup_lt_Some _ _ _ Ha) as Hi.
  pose proof (lookup_lt_Some _ _ _ Hb) as HSi.
  rewrite list_lookup_insert_eq by (rewrite length_insert; lia).
  rewrite list_lookup_insert_ne by lia.
  rewrite list_lookup_insert_eq by lia.
  apply list_eq. intros k.
  destruct (decide (k = i)) as [->|Hki].
  { rewrite list_lookup_insert_eq by (rewrite !length_insert; lia). done. }
  rewrite list_lookup_insert_ne by done.
  destruct (decide (k = S i)) as [->|HkSi].
  { rewrite list_lookup_insert_eq by (rewrite !length_insert; lia). done. }
  by rewrite !list_lookup_insert_ne by done.
Qed.

(** A swap keeps the length, so the bound [_sequence.size() - 1] of the
    inner loop is the same at every iteration. *)
Lemma swap_points_sequence_size s (i : N) :
  sequence_size (swap_points s i) = sequence_size s.
Proof.
  unfold sequence_size, swap_points, swap_adjacent. simpl.
  destruct (_sequence s !! N.to_nat i); [|done].
  destruct (_sequence s !! S (N.to_nat i)); [|done].
  by rewrite !length_insert.
Qed.

(** Links are position pairs, so permuting the sequence is invisible to
    the crossing count. *)
Lemma get_crossing_count_swap_points s (i : N) :
  get_crossing_count (swap_points s i) = get_crossing_count s.
Proof. reflexivity. Qed.

Lemma swap_points_twice s (i : N) :
  swap_points (swap_points s i) i = update_position_map s.
Proof.
  unfold swap_points, update_position_map. simpl.
  by rewrite swap_adjacent_involutive.
Qed.

Lemma update_position_map_idempotent s :
  update_position_map (update_position_map s) = update_position_map s.
Proof. reflexivity. Qed.

Lemma sweep_links (todo : nat) (i : N) s (current : N) (improved : bool) :
  _links (sweep todo i s current improved).1.1 = _links s.
Proof.
  revert i s current improved.
  induction todo as [|todo IH]; intros i s current improved; simpl; [done|].
  destruct (_ <? _); by rewrite IH.
Qed.

(** A pass started with the true crossing count reverts every swap. *)
Lemma sweep_no_gain (todo : nat) (i : N) s (improved : bool) :
  sweep todo i s (get_crossing_count s) improved
  = (match todo with O => s | S _ => update_position_map s end,
     get_crossing_count s, improved).
Proof.
  revert i s. induction todo as [|todo IH]; intros i s; simpl; [done|].
  rewrite get_crossing_count_swap_points, N.ltb_irrefl, swap_points_twice.
  change (get_crossing_count s)
    with (get_crossing_count (update_position_map s)).
  rewrite IH. by destruct todo.
Qed.

Lemma max_iterations_below_modulus s : max_iterations s < SIZE_MODULUS.
Proof. apply N.mod_upper_bound. done. Qed.

Lemma max_iterations_le_square s :
  max_iterations s <= sequence_size s * sequence_size s.
Proof. apply N.Div0.mod_le. Qed.

(** The [while] loop leaves within [max_iterations - iteration] further
    passes, whatever the passes do, and never touches the links. *)
Lemma optimize_loop_enough_fuel (fuel : nat) (bound : N) (improved : bool)
    (iteration : N) s :
  bound < SIZE_MODULUS -> iteration <= bound ->
  (N.to_nat (bound - iteration) <= fuel)%nat ->
  exists s' passes,
    optimize_loop fuel bound improved iteration s = Some (s', passes)
    /\ iteration <= passes <= bound /\ _links s' = _links s.
Proof.
  intros Hb. revert improved iteration s.
  induction fuel as [|fuel IH]; intros improved iteration s Hle Hfuel;
    simpl; destruct (improved && (iteration <? bound)) eqn:Hguard;
    try (exists s, iteration; split; [done|split; [lia|done]]).
  - apply andb_true_iff in Hguard as [_ Hlt%N.ltb_lt]. lia.
  - apply andb_true_iff in Hguard as [_ Hlt%N.ltb_lt].
    pose proof (sweep_links (N.to_nat (size_sub (sequence_size s) 1)) 0 s
                  (get_crossing_count s) false) as Hlinks.
    destruct (sweep _ 0 s _ false) as [[s1 c1] improved1]. simpl in Hlinks.
    assert (size_incr iteration = iteration + 1) as ->.
    { unfold size_incr. apply N.mod_small. lia. }
    destruct (IH improved1 (iteration + 1) s1) as (s' & passes & Hrun & Hp & Hl);
      [lia|lia|].
    exists s', passes. split; [done|]. split; [lia|congruence].
Qed.

Lemma optimize_loop_more_fuel (fuel fuel' : nat) (bound : N)
    (improved : bool) (iteration : N) s r :
  optimize_loop fuel bound improved iteration s = Some r ->
  (fuel <= fuel')%nat ->
  optimize_loop fuel' bound improved iteration s = Some r.
Proof.
  revert fuel' improved iteration s.
  induction fuel as [|fuel IH]; intros fuel' improved iteration s;
    destruct fuel' as [|fuel']; simpl;
    destruct (improved && (iteration <? bound)); try done; try lia.
  destruct (sweep _ 0 s _ false) as [[s1 c1] improved1].
  intros Hrun Hle. apply IH; [done|lia].
Qed.

Lemma optimize_sequence_passes_total s :
  exists passes,
    optimize_sequence_passes (N.to_nat (max_iterations s)) s
    = Some (optimize_sequence s, passes)
    /\ passes <= max_iterations s
    /\ _links (optimize_sequence s) = _links s.
Proof.
  destruct (optimize_loop_enough_fuel (N.to_nat (max_iterations s))
              (max_iterations s) true 0 s)
    as (s' & passes & Hrun & Hp & Hl);
    [apply max_iterations_below_modulus|lia|lia|].
  exists passes. unfold optimize_sequence, optimize_sequence_passes.
  rewrite Hrun. split; [done|]. split; [lia|done].
Qed.

Lemma optimize_sequence_links s :
  _links (optimize_sequence s) = _links s.
Proof. by destruct (optimize_sequence_passes_total s) as (? & _ & _ & ?). Qed.

(** C5: [optimize_sequence] returns after at most [sequence_size^2]
    passes (any budget of at least that many passes is enough for the
    loop to finish, the empty and the one-point sequence included), and
    the crossing count on return is at most the count on entry. *)
Theorem optimize_sequence_terminates_without_regression s (fuel : nat) :
  (N.to_nat (sequence_size s * sequence_size s) <= fuel)%nat ->
  exists passes,
    optimize_sequence_passes fuel s = Some (optimize_sequence s, passes)
    /\ passes <= sequence_size s * sequence_size s
    /\ get_crossing_count (optimize_sequence s) <= get_crossing_count s.
Proof.
  intros Hfuel.
  destruct (optimize_sequence_passes_total s) as (passes & Hrun & Hp & Hl).
  pose proof (max_iterations_le_square s) as Hsq.
  exists passes. split; [|split; [lia|]].
  - apply (optimize_loop_more_fuel _ _ _ _ _ _ _ Hrun). lia.
  - unfold get_crossing_count. rewrite Hl. lia.
Qed.

Lemma optimize_loop_not_improved (fuel : nat) (bound iteration : N) s :
  optimize_loop fuel bound false iteration s = Some (s, iteration).
Proof. by destruct fuel. Qed.

(** Whatever the state, the first pass finds no improvement, so the
    loop is left after it. *)
Lemma optimize_sequence_passes_first_pass (fuel : nat) s :
  optimize_sequence_passes (S fuel) s
  = if 0 <? max_iterations s
    then Some (match N.to_nat (size_sub (sequence_size s) 1) with
               | O => s
               | S _ => update_position_map s
               end, 1)
    else Some (s, 0).
Proof.
  unfold optimize_sequence_passes. simpl.
  destruct (0 <? max_iterations s); [|done].
  rewrite sweep_no_gain. apply optimize_loop_not_improved.
Qed.

(** *** Reachable engine states *)

Lemma update_position_map_consistent s :
  index_consistent s -> update_position_map s = s.
Proof.
  unfold index_consistent, update_position_map. destruct s; simpl.
  by intros ->.
Qed.

Lemma optimize_sequence_passes_consistent (fuel : nat) s :
  index_consistent s ->
  exists passes,
    optimize_sequence_passes (S fuel) s = Some (s, passes) /\ passes <= 1.
Proof.
  intros Hs. rewrite optimize_sequence_passes_first_pass.
  destruct (0 <? max_iterations s); [|by exists 0].
  exists 1. split; [|done].
  destruct (N.to_nat _); [done|]. by rewrite update_position_map_consistent.
Qed.

Lemma optimize_sequence_consistent s :
  index_consistent s -> optimize_sequence s = s.
Proof.
  intros Hs. unfold optimize_sequence.
  destruct (N.to_nat (max_iterations s)) as [|fuel] eqn:Hfuel.
  - unfold optimize_sequence_passes. simpl.
    assert (max_iterations s = 0) as -> by lia. done.
  - by destruct (optimize_sequence_passes_consistent fuel s Hs)
      as (passes & -> & _).
Qed.

Lemma add_link_cases s p q :
  (exists from_pos to_pos,
      _position_map s !! p = Some from_pos
      /\ _position_map s !! q = Some to_pos
      /\ crosses_none from_pos to_pos (_links s) = true
      /\ is_planar_link s p q = true
      /\ add_link s p q
         = (true, mkPlanarConstraints (_sequence s) (_position_map s)
                    (_links s ++ [(from_pos, to_pos)])))
  \/ (is_planar_link s p q = false /\ add_link s p q = (false, s)).
Proof.
  unfold add_link, is_planar_link, is_planar_link_log.
  destruct (_position_map s !! p) as [from_pos|];
    destruct (_position_map s !! q) as [to_pos|]; simpl; try by right.
  destruct (crosses_none from_pos to_pos (_links s)) eqn:Hc; simpl;
    [left|by right].
  by exists from_pos, to_pos.
Qed.

Lemma append_point_position l p :
  size_sub (N.of_nat (length (l ++ [p]))) 1 = N.of_nat (length l).
Proof.
  rewrite length_app. simpl. unfold size_sub.
  destruct (N.ltb_spec (N.of_nat (length l + 1)) 1); lia.
Qed.

Lemma perform_consistent s (o : operation Handle) :
  index_consistent s -> index_consistent (perform s o).
Proof.
  unfold index_consistent. intros Hs. destruct o as [| | |p q|p q|]; simpl.
  - done.
  - done.
  - rewrite append_point_position, fill_position_map_app, <- Hs. simpl.
    by rewrite N.add_0_l.
  - by destruct (add_link_cases s p q)
      as [(? & ? & _ & _ & _ & _ & ->)|[_ ->]].
  - unfold remove_link.
    by destruct (_position_map s !! p), (_position_map s !! q).
  - by rewrite optimize_sequence_consistent.
Qed.

Lemma perform_planar s (o : operation Handle) :
  is_planar s = true -> is_planar (perform s o) = true.
Proof.
  unfold is_planar. intros Hs. destruct o as [| | |p q|p q|]; simpl; try done.
  - destruct (add_link_cases s p q)
      as [(fp & tp & _ & _ & Hc & _ & ->)|[_ ->]]; simpl; [|done].
    rewrite planar_links_snoc. simpl. by rewrite Hs, Hc.
  - unfold remove_link.
    destruct (_position_map s !! p), (_position_map s !! q); simpl; try done.
    by apply planar_links_filter.
  - by rewrite optimize_sequence_links.
Qed.

Lemma foldl_perform_invariant (P : PlanarConstraints Handle -> Prop)
    (ops : list (operation Handle)) s :
  (forall s' o, P s' -> P (perform s' o)) -> P s -> P (foldl perform s ops).
Proof.
  intros Hstep. revert s. induction ops as [|o ops IH]; intros s Hs; simpl;
    [done|].
  apply IH, Hstep, Hs.
Qed.

Lemma run_consistent (ops : list (operation Handle)) :
  index_consistent (run ops).
Proof.
  unfold run. apply foldl_perform_invariant; [apply perform_consistent|done].
Qed.

Lemma run_planar (ops : list (operation Handle)) : is_planar (run ops) = true.
Proof.
  unfold run. apply foldl_perform_invariant; [apply perform_planar|done].
Qed.

(** C3: whatever public operations are called on a cleared engine, the
    stored links never contain a crossing pair: [is_planar] answers
    true and [get_crossing_count] answers 0.  In particular the count
    the policy layer inspects after an [add_link] is never positive. *)
Theorem reachable_engine_is_planar (ops : list (operation Handle)) p q :
  is_planar (run ops) = true
  /\ get_crossing_count (run ops) = 0
  /\ (0 <? get_crossing_count (add_link (run ops) p q).2) = false.
Proof.
  split; [apply run_planar|]. split.
  - apply count_links_planar, run_planar.
  - pose proof (run_planar (ops ++ [AddLink p q])) as Hp.
    unfold run in Hp. rewrite foldl_app in Hp. simpl in Hp.
    unfold get_crossing_count. by rewrite count_links_planar.
Qed.

(** C4: on every state the engine can be in, [optimize_sequence]
    changes nothing: sequence, position index and link set are as
    before.  A swap of adjacent points never changes the crossing
    count, and the first pass already reports no improvement. *)
Theorem optimize_sequence_is_identity (ops : list (operation Handle))
    (i : N) (fuel : nat) :
  optimize_sequence (run ops) = run ops
  /\ get_crossing_count (swap_points (run ops) i)
     = get_crossing_count (run ops)
  /\ exists passes,
      optimize_sequence_passes (S fuel) (run ops) = Some (run ops, passes)
      /\ passes <= 1.
Proof.
  pose proof (run_consistent ops) as Hs. split; [|split].
  - by apply optimize_sequence_consistent.
  - apply get_crossing_count_swap_points.
  - by apply optimize_sequence_passes_consistent.
Qed.

(** *** Points that are not in the sequence *)

Lemma run_absent_point (ops : list (operation Handle)) p :
  p ∉ _sequence (run ops) -> _position_map (run ops) !! p = None.
Proof.
  intros Hp. rewrite (run_consistent ops).
  by rewrite fill_position_map_absent, lookup_empty.
Qed.

(** An ordinary planarity rejection: both points are found and the
    candidate crosses a stored link.  Nothing is logged. *)
Lemma is_planar_link_log_crossing s p q (from_pos to_pos : N) :
  _position_map s !! p = Some from_pos ->
  _position_map s !! q = Some to_pos ->
  crosses_none from_pos to_pos (_links s) = false ->
  is_planar_link_log s p q = (false, []).
Proof.
  intros Hp Hq Hc. unfold is_planar_link_log. by rewrite Hp, Hq, Hc.
Qed.

(** C6 (as amended): when one of the two points is absent from the
    sequence, [is_planar_link] returns plain [false], the very value an
    ordinary planarity rejection returns; the condition is reported on
    the diagnostics log only, as one warning. *)
Theorem is_planar_link_absent_point (ops : list (operation Handle)) p q :
  p ∉ _sequence (run ops) \/ q ∉ _sequence (run ops) ->
  is_planar_link (run ops) p q = false
  /\ is_planar_link_log (run ops) p q = (false, [point_not_found]).
Proof.
  intros Habsent. unfold is_planar_link, is_planar_link_log.
  destruct Habsent as [Hp%run_absent_point|Hq%run_absent_point].
  - by rewrite Hp.
  - rewrite Hq. by destruct (_position_map (run ops) !! p).
Qed.

End EngineProperties.

(** ** Properties of the construction policy *)

Section PolicyProperties.
Context {Handle : Type} `{Countable Handle}.
Variable base_make_link :
  option (Handle -> Handle -> Handle -> Handle -> option Handle).
Variable work_as_add_link : Handle -> Handle -> option Handle.

(** What a call of [make_link] does to the link count: strict mode
    apart, it hands back the materialised link handle, and the engine's
    link count grows by exactly one when [is_planar_link] holds for the
    two points at the time of the call.  Otherwise (lenient mode, a
    crossing connection or a point that is not in the sequence) the
    attempted registration fails, because [add_link] tests planarity
    again, and the link count stays as it was. *)
Theorem make_link_link_count (cb : PlanarCallback Handle)
    (from_con to_con from_pnt to_pnt : Handle) :
  let planar := is_planar_link (_constraints cb) from_pnt to_pnt in
  let result :=
    make_link base_make_link work_as_add_link cb
              from_con to_con from_pnt to_pnt in
  result.1
  = (if negb planar && _strict_planarity cb then None
     else materialize base_make_link work_as_add_link
                      from_con to_con from_pnt to_pnt)
  /\ get_link_count (_constraints result.2)
     = get_link_count (_constraints cb) + (if planar then 1 else 0).
Proof.
  simpl. unfold make_link, is_connection_planar, get_link_count.
  destruct (add_link_cases (_constraints cb) from_pnt to_pnt)
    as [(fp & tp & _ & _ & _ & -> & ->)|[-> ->]]; simpl.
  - destruct (_auto_optimize cb && _); simpl;
      rewrite ?optimize_sequence_links; simpl;
      rewrite length_app; simpl; split; (done || lia).
  - destruct (_strict_planarity cb); simpl; [split; [done|lia]|].
    destruct (_auto_optimize cb && _); simpl;
      rewrite ?optimize_sequence_links; split; (done || lia).
Qed.

End PolicyProperties.

(** ** Further properties of the constraint engine *)

(** X1.  The verdict of [links_cross] depends neither on the direction of
    either link nor on the order in which the two links are given. *)
Theorem links_cross_direction_independent (a b c d : N) :
  links_cross a b c d = links_cross b a c d
  /\ links_cross a b c d = links_cross a b d c
  /\ links_cross a b c d = links_cross c d a b.
Proof.
  split; [|split].
  - apply links_cross_flip_first.
  - apply links_cross_flip_second.
  - apply links_cross_sym.
Qed.

Section EngineExtras.
Context {Handle : Type} `{Countable Handle}.
Implicit Types (s : PlanarConstraints Handle) (l pts : list Handle)
  (m : gmap Handle N) (p q : Handle) (links : list (N * N)).

Lemma crosses_none_flip (from_pos to_pos : N) links :
  crosses_none from_pos to_pos links = crosses_none to_pos from_pos links.
Proof.
  induction links as [|link links IH]; simpl; [done|].
  by rewrite (links_cross_flip_first from_pos to_pos), IH.
Qed.

(** X2.  [is_planar_link] does not depend on the direction of the candidate:
    value and log are the same for (from, to) and (to, from). *)
Theorem is_planar_link_direction_independent s p q :
  is_planar_link_log s p q = is_planar_link_log s q p
  /\ is_planar_link s p q = is_planar_link s q p.
Proof.
  assert (is_planar_link_log s p q = is_planar_link_log s q p) as Hlog.
  { unfold is_planar_link_log.
    destruct (_position_map s !! p) as [from_pos|],
      (_position_map s !! q) as [to_pos|]; try done.
    by rewrite crosses_none_flip. }
  split; [done|]. unfold is_planar_link. by rewrite Hlog.
Qed.

Lemma matches_link_flip (from_pos to_pos : N) (link : N * N) :
  matches_link from_pos to_pos link = matches_link to_pos from_pos link.
Proof. unfold matches_link. apply orb_comm. Qed.

Lemma filter_matches_link_flip (from_pos to_pos : N) links :
  filter (fun link => matches_link from_pos to_pos link = false) links
  = filter (fun link => matches_link to_pos from_pos link = false) links.
Proof.
  apply list_filter_iff. intros link. by rewrite matches_link_flip.
Qed.

(** X3.  [remove_link] does not depend on the direction either. *)
Theorem remove_link_direction_independent s p q :
  remove_link s p q = remove_link s q p.
Proof.
  unfold remove_link.
  destruct (_position_map s !! p) as [from_pos|],
    (_position_map s !! q) as [to_pos|]; try done.
  by rewrite filter_matches_link_flip.
Qed.

Lemma matches_link_self (from_pos to_pos : N) :
  matches_link from_pos to_pos (from_pos, to_pos) = true.
Proof. unfold matches_link. simpl. by rewrite !N.eqb_refl. Qed.

(** X4.  Adding a link and removing it again: the added entry is gone,
    together with every entry that connected the same two positions
    before, in either direction; if there was none, the engine is back
    in the state it started from. *)
Theorem add_link_then_remove_link s p q :
  (add_link s p q).1 = true ->
  remove_link (add_link s p q).2 p q = remove_link s p q
  /\ ((forall from_pos to_pos,
         _position_map s !! p = Some from_pos ->
         _position_map s !! q = Some to_pos ->
         ((from_pos, to_pos) ∉ _links s) /\ ((to_pos, from_pos) ∉ _links s)) ->
      remove_link (add_link s p q).2 p q = s).
Proof.
  destruct (add_link_cases s p q)
    as [(from_pos & to_pos & Hp & Hq & _ & _ & Hadd)|[_ Hadd]];
    rewrite Hadd; simpl; [intros _|discriminate].
  assert (remove_link
            (mkPlanarConstraints (_sequence s) (_position_map s)
               (_links s ++ [(from_pos, to_pos)])) p q
          = remove_link s p q) as Hremove.
  { unfold remove_link. simpl. rewrite Hp, Hq. f_equal.
    rewrite filter_app, filter_cons, filter_nil.
    rewrite decide_False by (rewrite matches_link_self; done).
    apply app_nil_r. }
  split; [done|]. intros Hfresh. rewrite Hremove.
  destruct (Hfresh _ _ Hp Hq) as [Hfwd Hbwd].
  unfold remove_link. rewrite Hp, Hq. destruct s as [sequence index links].
  simpl in *. f_equal.
  assert (Forall (fun link => matches_link from_pos to_pos link = false) links)
    as Hall.
  { apply Forall_forall. intros [a b] Hin. apply not_true_is_false.
    unfold matches_link. simpl. intros Hm.
    apply orb_true_iff in Hm as [Hm|Hm];
      apply andb_true_iff in Hm as [->%N.eqb_eq ->%N.eqb_eq]; done. }
  clear Hfwd Hbwd Hremove Hadd Hfresh. induction Hall as [|link links Hlink Hall IH];
    [done|].
  rewrite filter_cons_True by done. by rewrite IH.
Qed.

(** X5.  [optimize_sequence] never changes the sequence or the links, on any
    engine record, and running it a second time changes nothing. *)
Theorem optimize_sequence_idempotent s :
  _sequence (optimize_sequence s) = _sequence s
  /\ _links (optimize_sequence s) = _links s
  /\ optimize_sequence (optimize_sequence s) = optimize_sequence s.
Proof.
  assert (optimize_sequence s = s
          \/ optimize_sequence s = update_position_map s) as Hcases.
  { unfold optimize_sequence.
    destruct (N.to_nat (max_iterations s)) as [|fuel] eqn:Hfuel.
    - unfold optimize_sequence_passes. simpl.
      assert (max_iterations s = 0) as -> by lia. by left.
    - rewrite optimize_sequence_passes_first_pass.
      destruct (0 <? max_iterations s); [|by left].
      destruct (N.to_nat (size_sub (sequence_size s) 1)); [by left|by right]. }
  destruct Hcases as [Hsame|Hrebuilt].
  - by rewrite !Hsame.
  - rewrite !Hrebuilt. split; [done|]. split; [done|].
    by apply optimize_sequence_consistent.
Qed.

(** *** The position index of a reachable engine *)

Lemma fill_position_map_present l (i : N) m p :
  p ∈ l -> is_Some (fill_position_map l i m !! p).
Proof.
  revert i m. induction l as [|a l IH]; intros i m Hp; simpl.
  - by apply elem_of_nil in Hp.
  - destruct (decide (p ∈ l)) as [Hin|Hout]; [by apply IH|].
    apply elem_of_cons in Hp as [->|Hp]; [|done].
    rewrite fill_position_map_absent by done.
    rewrite lookup_insert_eq. by eexists.
Qed.

Lemma fill_position_map_last l (i : N) m p (pos : N) :
  fill_position_map l i m !! p = Some pos ->
  (exists j : nat,
      l !! j = Some p /\ pos = i + N.of_nat j
      /\ forall j' : nat, (j < j')%nat -> l !! j' <> Some p)
  \/ ((p ∉ l) /\ m !! p = Some pos).
Proof.
  revert i m. induction l as [|a l IH]; intros i m Hpos; simpl in *.
  - right. split; [apply not_elem_of_nil|done].
  - destruct (IH _ _ Hpos) as [(j & Hj & -> & Hlast)|[Hout Hm]].
    + left. exists (S j). split; [done|]. split; [lia|].
      intros [|j'] Hlt; [lia|]. simpl. apply Hlast. lia.
    + destruct (decide (a = p)) as [->|Hne].
      * rewrite lookup_insert_eq in Hm. injection Hm as <-.
        left. exists O. split; [done|]. split; [lia|].
        intros [|j'] Hlt; [lia|]. simpl. intros Hj'.
        by apply list_elem_of_lookup_2 in Hj'.
      * rewrite lookup_insert_ne in Hm by done.
        right. split; [|done]. by apply not_elem_of_cons.
Qed.

Lemma index_consistent_lookup s p :
  index_consistent s ->
  match _position_map s !! p with
  | Some pos =>
      _sequence s !! N.to_nat pos = Some p
      /\ forall j : nat, (N.to_nat pos < j)%nat -> _sequence s !! j <> Some p
  | None => p ∉ _sequence s
  end.
Proof.
  unfold index_consistent. intros ->.
  destruct (fill_position_map _ 0 ∅ !! p) as [pos|] eqn:Hpos.
  - destruct (fill_position_map_last _ _ _ _ _ Hpos)
      as [(j & Hj & -> & Hlast)|[_ Hm]]; [|by rewrite lookup_empty in Hm].
    rewrite N.add_0_l, Nat2N.id. by split.
  - intros Hin. apply (fill_position_map_present _ 0 ∅) in Hin as [pos' Hin].
    congruence.
Qed.

(** X6.  On every reachable engine the position index is exact, duplicates in
    the sequence included: a point the index knows sits in the sequence
    at the recorded offset, which is its last occurrence, and a point the
    index does not know is not in the sequence at all. *)
Theorem position_index_sound (ops : list (operation Handle)) p :
  match _position_map (run ops) !! p with
  | Some pos =>
      _sequence (run ops) !! N.to_nat pos = Some p
      /\ forall j : nat,
          (N.to_nat pos < j)%nat -> _sequence (run ops) !! j <> Some p
  | None => p ∉ _sequence (run ops)
  end.
Proof. apply index_consistent_lookup, run_consistent. Qed.

Lemma index_consistent_position_lt s p (pos : N) :
  index_consistent s -> _position_map s !! p = Some pos ->
  pos < sequence_size s.
Proof.
  unfold index_consistent, sequence_size. intros -> Hpos.
  destruct (fill_position_map_last _ _ _ _ _ Hpos)
    as [(j & Hj%lookup_lt_Some & -> & _)|[_ Hm]];
    [lia|by rewrite lookup_empty in Hm].
Qed.

Lemma perform_links_in_range s (o : operation Handle) :
  index_consistent s -> links_in_range s -> links_in_range (perform s o).
Proof.
  unfold links_in_range. intros Hs Hr. destruct o as [| | |p q|p q|]; simpl.
  - apply Forall_nil_2.
  - apply Forall_nil_2.
  - eapply Forall_impl; [exact Hr|]. unfold sequence_size. simpl.
    intros link. rewrite length_app. simpl. lia.
  - destruct (add_link_cases s p q)
      as [(fp & tp & Hp & Hq & _ & _ & ->)|[_ ->]]; simpl; [|done].
    apply Forall_app. split; [done|]. apply Forall_singleton. simpl.
    split; by eapply index_consistent_position_lt.
  - unfold remove_link.
    destruct (_position_map s !! p), (_position_map s !! q); simpl; try done.
    apply Forall_forall. intros link [_ Hin]%list_elem_of_filter.
    by apply (proj1 (Forall_forall _ _) Hr).
  - by rewrite optimize_sequence_consistent.
Qed.

(** X7.  Every link a reachable engine stores consists of two offsets into
    its current sequence. *)
Theorem stored_links_in_range (ops : list (operation Handle)) :
  links_in_range (run ops).
Proof.
  enough (index_consistent (run ops) /\ links_in_range (run ops)) by tauto.
  unfold run.
  apply (foldl_perform_invariant
           (fun s => index_consistent s /\ links_in_range s)).
  - intros s o [Hs Hr]. split.
    + by apply perform_consistent.
    + by apply perform_links_in_range.
  - split; [done|apply Forall_nil_2].
Qed.

(** *** [get_position] *)

Lemma to_int_small (x : N) : x < 2 ^ 31 -> to_int x = Z.of_N x.
Proof.
  intros Hx. unfold to_int.
  assert (Z.of_N x mod 2 ^ 32 = Z.of_N x)%Z as -> by (apply Z.mod_small; lia).
  destruct (Z.ltb_spec (Z.of_N x) (2 ^ 31)); lia.
Qed.

(** X8.  [get_position] answers -1 for a point the index does not know, and
    also for a known point whose position is [2^32 - 1] modulo [2^32];
    in no other case. *)
Theorem get_position_minus_one s p :
  get_position s p = (-1)%Z
  <-> _position_map s !! p = None
      \/ exists pos,
          _position_map s !! p = Some pos /\ pos mod 2 ^ 32 = 2 ^ 32 - 1.
Proof.
  unfold get_position.
  destruct (_position_map s !! p) as [pos|]; [|by split; [left|]].
  assert (to_int pos = (-1)%Z <-> pos mod 2 ^ 32 = 2 ^ 32 - 1) as Hcast.
  { unfold to_int.
    assert (Z.of_N pos mod 2 ^ 32 = Z.of_N (pos mod 2 ^ 32))%Z as ->
      by (rewrite N2Z.inj_mod; done).
    pose proof (N.mod_upper_bound pos (2 ^ 32)) as Hlt.
    generalize dependent (pos mod 2 ^ 32). intros r Hlt.
    specialize (Hlt ltac:(done)).
    change (2 ^ 32) with 4294967296 in *.
    change (2 ^ 32)%Z with 4294967296%Z.
    change (2 ^ 31)%Z with 2147483648%Z.
    destruct (Z.ltb_spec (Z.of_N r) 2147483648); split; lia. }
  rewrite Hcast. split.
  - intros Hpos. right. by exists pos.
  - intros [?|(pos' & [= <-] & Hpos)]; done.
Qed.

Lemma get_position_consistent s p :
  index_consistent s -> sequence_size s <= 2 ^ 31 ->
  (get_position s p = (-1)%Z <-> p ∉ _sequence s)
  /\ (p ∈ _sequence s ->
      (0 <= get_position s p < Z.of_N (sequence_size s))%Z
      /\ _sequence s !! Z.to_nat (get_position s p) = Some p).
Proof.
  intros Hs Hsize. pose proof (index_consistent_lookup s p Hs) as Hsound.
  unfold get_position.
  destruct (_position_map s !! p) as [pos|] eqn:Hpos.
  - destruct Hsound as [Hat _].
    pose proof (index_consistent_position_lt _ _ _ Hs Hpos).
    rewrite to_int_small by lia.
    assert (p ∈ _sequence s) by by eapply list_elem_of_lookup_2.
    split; [split; [lia|done]|]. intros _. split; [lia|].
    by replace (Z.to_nat (Z.of_N pos)) with (N.to_nat pos) by lia.
  - split; [done|]. done.
Qed.

(** X9.  On a reachable engine of at most [2^31] points, [get_position] is
    -1 exactly for the points that are not in the sequence, and for a
    point of the sequence it is an offset at which the sequence holds
    that point. *)
Theorem get_position_reachable (ops : list (operation Handle)) p :
  sequence_size (run ops) <= 2 ^ 31 ->
  (get_position (run ops) p = (-1)%Z <-> p ∉ _sequence (run ops))
  /\ (p ∈ _sequence (run ops) ->
      (0 <= get_position (run ops) p < Z.of_N (sequence_size (run ops)))%Z
      /\ _sequence (run ops) !! Z.to_nat (get_position (run ops) p) = Some p).
Proof. apply get_position_consistent, run_consistent. Qed.

(** *** The two audits *)

Lemma count_later_bounds (link : N * N) links (count : N) :
  count + N.of_nat (length links) < SIZE_MODULUS ->
  count <= count_later link links count <= count + N.of_nat (length links)
  /\ (count_later link links count = count
      <-> crosses_later link links = false).
Proof.
  revert count. induction links as [|other links IH]; intros count Hb;
    simpl in *; [split; [lia|done]|].
  destruct (links_cross _ _ _ _).
  - assert (size_incr count = count + 1) as ->
      by (unfold size_incr; apply N.mod_small; lia).
    destruct (IH (count + 1)) as [Hrange _]; [lia|].
    split; [lia|]. split; [lia|done].
  - destruct (IH count) as [Hrange Hiff]; [lia|]. split; [lia|done].
Qed.

Lemma count_links_bounds links (count : N) :
  count + N.of_nat (length links) * N.of_nat (length links) < SIZE_MODULUS ->
  count <= count_links links count
  /\ 2 * (count_links links count - count)
     <= N.of_nat (length links) * (N.of_nat (length links) - 1)
  /\ (count_links links count = count <-> planar_links links = true).
Proof.
  revert count. induction links as [|link links IH]; intros count Hb;
    simpl in *; [split; [lia|split; [lia|done]]|].
  destruct (count_later_bounds link links count) as [Hlater Hlater_iff];
    [nia|].
  destruct (IH (count_later link links count)) as (Hle & Hpairs & Hiff); [nia|].
  split; [lia|]. split; [nia|].
  destruct (crosses_later link links) eqn:Hc.
  - split; [|done]. intros Heq.
    assert (count_later link links count = count) as Hsame by lia.
    apply Hlater_iff in Hsame. done.
  - rewrite (proj2 Hlater_iff eq_refl) in *. done.
Qed.

(** X10.  As long as the engine holds fewer than [2^32] links, so that the
    [size_t] counter cannot wrap, [get_crossing_count] is 0 exactly when
    [is_planar] holds, and it never exceeds the number of link pairs. *)
Theorem get_crossing_count_zero_iff_is_planar s :
  get_link_count s < 2 ^ 32 ->
  (get_crossing_count s = 0 <-> is_planar s = true)
  /\ 2 * get_crossing_count s <= get_link_count s * (get_link_count s - 1).
Proof.
  unfold get_link_count, get_crossing_count, is_planar. intros Hn.
  destruct (count_links_bounds (_links s) 0) as (_ & Hpairs & Hiff).
  { unfold SIZE_MODULUS. change (2 ^ 64) with (2 ^ 32 * 2 ^ 32). nia. }
  split; [done|]. lia.
Qed.

End EngineExtras.

(** ** Properties of [get_crossing_links] *)

Lemma unique_nil {A : Type} `{EqDecision A} (l : list A) :
  unique l = [] -> l = [].
Proof.
  induction l as [|x [|y rest] IH]; simpl in *; try done.
  destruct (decide (x = y)); [|done]. intros Hu. by apply IH in Hu.
Qed.

Section CrossingLinks.
Context {Handle : Type} `{Countable Handle}.
Context (handle_lt : Handle -> Handle -> Prop) `{!RelDecision handle_lt}.
Implicit Types (s : PlanarConstraints Handle) (sequence : list Handle)
  (links : list (N * N)) (found : list (Handle * Handle)).

Lemma collect_later_grows sequence (link : N * N) links found found' :
  collect_later sequence link links found = Some found' ->
  exists extra,
    found' = found ++ extra
    /\ (extra = [] <-> crosses_later link links = false).
Proof.
  revert found. induction links as [|other links IH]; intros found; simpl.
  - intros [= <-]. exists []. by rewrite app_nil_r.
  - destruct (links_cross _ _ _ _).
    + destruct (resolve_link sequence link) as [a|]; [|done].
      destruct (resolve_link sequence other) as [b|]; [|done].
      intros (extra & -> & _)%IH. exists ([a; b] ++ extra).
      rewrite <- app_assoc. split; [done|]. by split.
    + apply IH.
Qed.

Lemma collect_later_none sequence (link : N * N) links found :
  crosses_later link links = false ->
  collect_later sequence link links found = Some found.
Proof.
  induction links as [|other links IH]; simpl; [done|].
  by destruct (links_cross _ _ _ _).
Qed.

Lemma collect_links_grows sequence links found found' :
  collect_links sequence links found = Some found' ->
  exists extra,
    found' = found ++ extra /\ (extra = [] <-> planar_links links = true).
Proof.
  revert found. induction links as [|link links IH]; intros found; simpl.
  - intros [= <-]. exists []. by rewrite app_nil_r.
  - destruct (collect_later sequence link links found) as [found1|] eqn:H1;
      [|done].
    apply collect_later_grows in H1 as (extra1 & -> & Hiff1).
    intros (extra & -> & Hiff)%IH. exists (extra1 ++ extra).
    rewrite <- app_assoc. split; [done|].
    destruct (crosses_later link links).
    + split; [|done]. intros [He _]%app_eq_nil. by apply Hiff1 in He.
    + rewrite (proj2 Hiff1 eq_refl). simpl. done.
Qed.

Lemma collect_links_planar sequence links found :
  planar_links links = true ->
  collect_links sequence links found = Some found.
Proof.
  induction links as [|link links IH]; simpl; [done|].
  destruct (crosses_later link links) eqn:Hc; [done|]. intros Hp.
  rewrite collect_later_none by done. by apply IH.
Qed.

(** X11.  The two audits agree on every engine record: [get_crossing_links]
    returns the empty list exactly when [is_planar] holds. *)
Theorem get_crossing_links_empty_iff_is_planar s :
  get_crossing_links handle_lt s = Some [] <-> is_planar s = true.
Proof.
  unfold get_crossing_links, is_planar. split.
  - destruct (collect_links (_sequence s) (_links s) []) as [found|] eqn:Hc;
      [|done].
    intros [= Hu%unique_nil].
    assert (found = []) as ->.
    { apply Permutation_nil_r. rewrite <- Hu.
      symmetry. apply merge_sort_Permutation. }
    apply collect_links_grows in Hc as (extra & Heq & Hiff).
    apply Hiff. by destruct extra.
  - intros Hp. by rewrite collect_links_planar.
Qed.

(** X12.  On a reachable engine [get_crossing_links] has nothing to report. *)
Theorem get_crossing_links_reachable (ops : list (operation Handle)) :
  get_crossing_links handle_lt (run ops) = Some [].
Proof.
  unfold get_crossing_links.
  by rewrite collect_links_planar by apply run_planar.
Qed.

End CrossingLinks.

(** ** Further properties of the construction policy *)

Section PolicyExtras.
Context {Handle : Type} `{Countable Handle}.
Variable is_section_link : Handle -> bool.
Variable getOutgoingSet : Handle -> list Handle.
Variable base_make_link :
  option (Handle -> Handle -> Handle -> Handle -> option Handle).
Variable work_as_add_link : Handle -> Handle -> option Handle.
Implicit Types (cb : PlanarCallback Handle) (p q : Handle)
  (points : list Handle).

(** The operations at the collaborators of this section. *)
#[local] Abbreviation policy_perform' :=
  (policy_perform is_section_link getOutgoingSet
                  base_make_link work_as_add_link).
#[local] Abbreviation policy_run' :=
  (policy_run is_section_link getOutgoingSet
              base_make_link work_as_add_link).
#[local] Abbreviation extract_points' :=
  (extract_points_from_section is_section_link getOutgoingSet).
#[local] Abbreviation select_filter' :=
  (select_filter is_section_link getOutgoingSet).
#[local] Abbreviation make_link' :=
  (make_link base_make_link work_as_add_link).

(** *** The policy only drives the engine through its public operations *)

Lemma run_snoc (eops : list (operation Handle)) (o : operation Handle) :
  run (eops ++ [o]) = perform (run eops) o.
Proof. unfold run. by rewrite foldl_app. Qed.

Lemma ensure_point_engine cb p (eops : list (operation Handle)) :
  _constraints cb = run eops ->
  _current_sequence cb = _sequence (_constraints cb) ->
  (exists eops', _constraints (ensure_point cb p) = run eops')
  /\ _current_sequence (ensure_point cb p)
     = _sequence (_constraints (ensure_point cb p))
  /\ _links (_constraints (ensure_point cb p)) = _links (_constraints cb)
  /\ _strict_planarity (ensure_point cb p) = _strict_planarity cb
  /\ _auto_optimize (ensure_point cb p) = _auto_optimize cb.
Proof.
  intros Hrun Hsync. unfold ensure_point.
  destruct (is_absent cb p); [|by repeat split; eauto].
  assert (exists eops',
             append_point (_constraints cb) p = run eops') as Happend.
  { exists (eops ++ [AppendPoint p]). by rewrite run_snoc, <- Hrun. }
  destruct (_current_sequence cb) eqn:Hseq; simpl;
    rewrite <- ?Hsync, ?Hseq; done.
Qed.

Lemma ensure_points_engine points cb (eops : list (operation Handle)) :
  _constraints cb = run eops ->
  _current_sequence cb = _sequence (_constraints cb) ->
  (exists eops',
      _constraints (ensure_points_in_sequence cb points) = run eops')
  /\ _current_sequence (ensure_points_in_sequence cb points)
     = _sequence (_constraints (ensure_points_in_sequence cb points))
  /\ _links (_constraints (ensure_points_in_sequence cb points))
     = _links (_constraints cb)
  /\ _strict_planarity (ensure_points_in_sequence cb points)
     = _strict_planarity cb
  /\ _auto_optimize (ensure_points_in_sequence cb points) = _auto_optimize cb.
Proof.
  revert cb eops. induction points as [|p points IH]; intros cb eops Hrun Hsync;
    simpl; [by repeat split; eauto|].
  destruct (ensure_point_engine cb p eops Hrun Hsync)
    as ([eops1 Hrun1] & Hsync1 & Hlinks1 & Hstrict1 & Hauto1).
  destruct (IH _ _ Hrun1 Hsync1) as (Hrun2 & Hsync2 & Hlinks2 & Hs2 & Ha2).
  unfold ensure_points_in_sequence in *. repeat split; congruence.
Qed.

(** Whatever [select] answers, the state it leaves is the one after the
    two calls of [ensure_points_in_sequence]. *)
Lemma select_filter_state cb (selected from_sect : option Handle) :
  (select_filter' cb selected from_sect).2
  = match selected with
    | Some _ =>
        ensure_points_in_sequence
          (ensure_points_in_sequence cb (extract_points' from_sect))
          (extract_points' selected)
    | None => cb
    end.
Proof.
  unfold select_filter. destruct selected as [sel|]; [|done].
  destruct (extract_points' from_sect) as [|from_pnt ?],
    (extract_points' (Some sel)) as [|to_pnt ?]; try done.
  destruct (negb _); [destruct (_strict_planarity _)|]; done.
Qed.

Lemma select_filter_engine cb (selected from_sect : option Handle)
    (eops : list (operation Handle)) :
  _constraints cb = run eops ->
  _current_sequence cb = _sequence (_constraints cb) ->
  (exists eops',
      _constraints (select_filter' cb selected from_sect).2 = run eops')
  /\ _current_sequence (select_filter' cb selected from_sect).2
     = _sequence (_constraints (select_filter' cb selected from_sect).2)
  /\ _links (_constraints (select_filter' cb selected from_sect).2)
     = _links (_constraints cb)
  /\ _strict_planarity (select_filter' cb selected from_sect).2
     = _strict_planarity cb
  /\ _auto_optimize (select_filter' cb selected from_sect).2
     = _auto_optimize cb.
Proof.
  intros Hrun Hsync. rewrite select_filter_state.
  destruct selected as [sel|]; [|by repeat split; eauto].
  destruct (ensure_points_engine (extract_points' from_sect)
              cb eops Hrun Hsync)
    as ([eops1 Hrun1] & Hsync1 & Hlinks1 & Hstrict1 & Hauto1).
  destruct (ensure_points_engine (extract_points' (Some sel))
              _ eops1 Hrun1 Hsync1)
    as (Hrun2 & Hsync2 & Hlinks2 & Hstrict2 & Hauto2).
  repeat split; (done || congruence).
Qed.

(** A call of [make_link] on a policy whose engine is reachable never
    gets to the optimiser: the engine holds no crossing afterwards. *)
Lemma make_link_engine cb (from_con to_con from_pnt to_pnt : Handle)
    (eops : list (operation Handle)) :
  _constraints cb = run eops ->
  (make_link' cb from_con to_con from_pnt to_pnt).2 = cb
  \/ (make_link' cb from_con to_con from_pnt to_pnt).2
     = mkPlanarCallback (run (eops ++ [AddLink from_pnt to_pnt]))
                        (_current_sequence cb)
                        (_strict_planarity cb) (_auto_optimize cb).
Proof.
  intros Hrun. unfold make_link.
  destruct (negb _ && _strict_planarity cb); [by left|]. right.
  rewrite Hrun.
  change (add_link (run eops) from_pnt to_pnt).2
    with (perform (run eops) (AddLink from_pnt to_pnt)).
  rewrite <- run_snoc.
  assert (get_crossing_count (run (eops ++ [AddLink from_pnt to_pnt])) = 0)
    as -> by apply count_links_planar, run_planar.
  by rewrite andb_false_r.
Qed.

Lemma policy_perform_engine cb (o : policy_operation Handle)
    (eops : list (operation Handle)) :
  _constraints cb = run eops ->
  _current_sequence cb = _sequence (_constraints cb) ->
  (exists eops', _constraints (policy_perform' cb o) = run eops')
  /\ _current_sequence (policy_perform' cb o)
     = _sequence (_constraints (policy_perform' cb o)).
Proof.
  intros Hrun Hsync.
  destruct o as [strict|optimize|sequence| |points|selected from_sect
                |from_con to_con from_pnt to_pnt]; simpl.
  - by repeat split; eauto.
  - by repeat split; eauto.
  - split; [|done]. exists (eops ++ [SetSequence sequence]).
    by rewrite run_snoc, <- Hrun.
  - split; [|done]. exists (eops ++ [Clear]). by rewrite run_snoc.
  - destruct (ensure_points_engine points cb eops Hrun Hsync)
      as (? & ? & _). done.
  - destruct (select_filter_engine cb selected from_sect eops Hrun Hsync)
      as (? & ? & _). done.
  - destruct (make_link_engine cb from_con to_con from_pnt to_pnt eops Hrun)
      as [->| ->]; [by repeat split; eauto|]. simpl. split; [by repeat split; eauto|].
    rewrite Hsync, Hrun, run_snoc. simpl.
    by destruct (add_link_cases (run eops) from_pnt to_pnt)
      as [(? & ? & _ & _ & _ & _ & ->)|[_ ->]].
Qed.

Lemma policy_run_engine (ops : list (policy_operation Handle)) :
  (exists eops, _constraints (policy_run' ops) = run eops)
  /\ _current_sequence (policy_run' ops)
     = _sequence (_constraints (policy_run' ops)).
Proof.
  induction ops as [|o ops IH] using rev_ind.
  - split; [by exists []|done].
  - destruct IH as [[eops Hrun] Hsync]. unfold policy_run in *.
    rewrite foldl_app. simpl. by eapply policy_perform_engine.
Qed.

(** X13.  Whatever operations are called on a freshly constructed policy, its
    engine is in a state that the engine's own public operations reach
    from a cleared engine, and the sequence the policy caches is the
    engine's sequence. *)
Theorem policy_engine_is_reachable (ops : list (policy_operation Handle)) :
  (exists eops, _constraints (policy_run' ops) = run eops)
  /\ _current_sequence (policy_run' ops)
     = _sequence (_constraints (policy_run' ops)).
Proof. apply policy_run_engine. Qed.

(** X14.  [make_link] never reorders: on every reachable policy, with or
    without auto-optimisation, it leaves the cached sequence, the
    engine's sequence and the position index as they were, and the
    engine without a crossing. *)
Theorem make_link_never_reorders (ops : list (policy_operation Handle))
    (from_con to_con from_pnt to_pnt : Handle) :
  let cb := policy_run' ops in
  let cb' := (make_link' cb from_con to_con from_pnt to_pnt).2 in
  _current_sequence cb' = _current_sequence cb
  /\ _sequence (_constraints cb') = _sequence (_constraints cb)
  /\ _position_map (_constraints cb') = _position_map (_constraints cb)
  /\ get_crossing_count (_constraints cb') = 0.
Proof.
  simpl. destruct (policy_run_engine ops) as [[eops Hrun] _].
  destruct (make_link_engine (policy_run' ops)
              from_con to_con from_pnt to_pnt eops Hrun) as [->| ->].
  - rewrite Hrun. repeat split. apply count_links_planar, run_planar.
  - simpl. rewrite Hrun, run_snoc. simpl.
    split; [done|].
    pose proof (run_planar (eops ++ [AddLink from_pnt to_pnt])) as Hplanar.
    rewrite run_snoc in Hplanar. simpl in Hplanar.
    split; [|split]; [| |by apply count_links_planar].
    + by destruct (add_link_cases (run eops) from_pnt to_pnt)
        as [(? & ? & _ & _ & _ & _ & ->)|[_ ->]].
    + by destruct (add_link_cases (run eops) from_pnt to_pnt)
        as [(? & ? & _ & _ & _ & _ & ->)|[_ ->]].
Qed.

(** *** Inserting missing points *)

Lemma is_absent_iff cb p (eops : list (operation Handle)) :
  _constraints cb = run eops ->
  _current_sequence cb = _sequence (_constraints cb) ->
  N.of_nat (length (_current_sequence cb)) <= 2 ^ 31 ->
  is_absent cb p = true <-> p ∉ _current_sequence cb.
Proof.
  intros Hrun Hsync Hsize. unfold is_absent. rewrite Hsync in *.
  destruct (get_position_consistent (_constraints cb) p) as [Hiff _].
  - rewrite Hrun. apply run_consistent.
  - done.
  - rewrite <- Hiff. apply Z.eqb_eq.
Qed.

Lemma ensure_point_sequence cb p (eops : list (operation Handle)) :
  _constraints cb = run eops ->
  _current_sequence cb = _sequence (_constraints cb) ->
  N.of_nat (length (_current_sequence cb)) <= 2 ^ 31 ->
  _current_sequence (ensure_point cb p)
  = _current_sequence cb
    ++ (if decide (p ∈ _current_sequence cb) then [] else [p]).
Proof.
  intros Hrun Hsync Hsize.
  pose proof (is_absent_iff cb p eops Hrun Hsync Hsize) as Habsent.
  unfold ensure_point. destruct (is_absent cb p).
  - rewrite decide_False by by apply Habsent.
    by destruct (_current_sequence cb).
  - rewrite decide_True; [by rewrite app_nil_r|].
    destruct (decide (p ∈ _current_sequence cb)) as [|Hout]; [done|].
    by apply Habsent in Hout.
Qed.

Lemma ensure_points_added points cb (eops : list (operation Handle)) :
  _constraints cb = run eops ->
  _current_sequence cb = _sequence (_constraints cb) ->
  N.of_nat (length (_current_sequence cb)) + N.of_nat (length points)
  <= 2 ^ 31 ->
  exists added,
    _current_sequence (ensure_points_in_sequence cb points)
    = _current_sequence cb ++ added
    /\ NoDup added
    /\ (length added <= length points)%nat
    /\ forall p, p ∈ added <-> p ∈ points /\ p ∉ _current_sequence cb.
Proof.
  revert cb eops.
  induction points as [|q points IH]; intros cb eops Hrun Hsync Hsize; simpl.
  { exists []. rewrite app_nil_r. split; [done|]. split; [constructor|].
    split; [done|]. set_solver. }
  simpl in Hsize.
  pose proof (ensure_point_sequence cb q eops Hrun Hsync ltac:(lia)) as Hseq.
  destruct (ensure_point_engine cb q eops Hrun Hsync)
    as ([eops1 Hrun1] & Hsync1 & _).
  destruct (IH (ensure_point cb q) eops1 Hrun1 Hsync1)
    as (added & Hadded & Hnd & Hlen & Hin).
  { rewrite Hseq, length_app. destruct (decide _); simpl; lia. }
  unfold ensure_points_in_sequence in *. rewrite Hadded, Hseq.
  destruct (decide (q ∈ _current_sequence cb)) as [Hq|Hq].
  - exists added. rewrite Hseq, app_nil_r in Hin. rewrite app_nil_r.
    split; [done|]. split; [done|]. split; [lia|].
    intros p. rewrite Hin. set_solver.
  - exists (q :: added). rewrite <- app_assoc. rewrite Hseq in Hin.
    split; [done|]. split; [|split; [simpl; lia|]].
    + apply NoDup_cons. split; [|done]. rewrite Hin. set_solver.
    + intros p. rewrite elem_of_cons, Hin.
      destruct (decide (p = q)) as [->|]; set_solver.
Qed.

(** X15.  [ensure_points_in_sequence], on a reachable policy with room below
    [2^31] points: exactly the points that were missing are appended,
    each once and in the order given; afterwards every requested point
    has a position; the links are not touched. *)
Theorem ensure_points_in_sequence_adds_missing
    (ops : list (policy_operation Handle)) points :
  let cb := policy_run' ops in
  let cb' := ensure_points_in_sequence cb points in
  N.of_nat (length (_current_sequence cb)) + N.of_nat (length points)
  <= 2 ^ 31 ->
  (exists added,
      _current_sequence cb' = _current_sequence cb ++ added
      /\ NoDup added
      /\ forall p, p ∈ added <-> p ∈ points /\ p ∉ _current_sequence cb)
  /\ (forall p, p ∈ points -> is_absent cb' p = false)
  /\ _links (_constraints cb') = _links (_constraints cb).
Proof.
  simpl. intros Hsize. destruct (policy_run_engine ops) as [[eops Hrun] Hsync].
  destruct (ensure_points_added points _ eops Hrun Hsync Hsize)
    as (added & Hadded & Hnd & Hlen & Hin).
  destruct (ensure_points_engine points _ eops Hrun Hsync)
    as ([eops' Hrun'] & Hsync' & Hlinks & _).
  split; [by exists added|]. split; [|done].
  intros p Hp. apply not_true_is_false. intros Habsent.
  apply (is_absent_iff _ p eops' Hrun' Hsync') in Habsent.
  - apply Habsent. rewrite Hadded, elem_of_app, Hin.
    destruct (decide (p ∈ _current_sequence (policy_run' ops))); tauto.
  - rewrite Hadded, length_app. lia.
Qed.

(** X16.  [find_best_insertion_position], on a reachable policy of at most
    [2^31] points, always names a valid insertion index: the slot right
    after the connected point when that point is in the sequence, the
    end of the sequence otherwise. *)
Theorem find_best_insertion_position_valid
    (ops : list (policy_operation Handle)) (point connected_point : Handle) :
  let cb := policy_run' ops in
  let position := find_best_insertion_position cb point connected_point in
  N.of_nat (length (_current_sequence cb)) <= 2 ^ 31 ->
  position <= N.of_nat (length (_current_sequence cb))
  /\ (connected_point ∈ _current_sequence cb ->
      1 <= position
      /\ _current_sequence cb !! N.to_nat (position - 1)
         = Some connected_point)
  /\ (connected_point ∉ _current_sequence cb ->
      position = N.of_nat (length (_current_sequence cb))).
Proof.
  simpl. intros Hsize. destruct (policy_run_engine ops) as [[eops Hrun] Hsync].
  unfold find_best_insertion_position. rewrite Hsync in *.
  destruct (get_position_consistent (_constraints (policy_run' ops))
              connected_point) as [Habsent Hpresent];
    [rewrite Hrun; apply run_consistent|done|].
  unfold sequence_size in *.
  destruct (decide (connected_point ∈ _sequence (_constraints (policy_run' ops))))
    as [Hin|Hout].
  - destruct (Hpresent Hin) as [Hrange Hat].
    destruct (Z.leb_spec 0 (get_position (_constraints (policy_run' ops))
                              connected_point)); [|lia].
    split; [lia|]. split; [|done]. intros _. split; [lia|].
    by replace (N.to_nat (Z.to_N (get_position _ connected_point) + 1 - 1))
      with (Z.to_nat (get_position (_constraints (policy_run' ops))
                        connected_point)) by lia.
  - rewrite (proj2 Habsent Hout). simpl. split; [lia|]. by split.
Qed.

(** *** Selection *)

Lemma ensure_points_flags points cb :
  _strict_planarity (ensure_points_in_sequence cb points)
  = _strict_planarity cb
  /\ _auto_optimize (ensure_points_in_sequence cb points) = _auto_optimize cb
  /\ _links (_constraints (ensure_points_in_sequence cb points))
     = _links (_constraints cb).
Proof.
  revert cb. induction points as [|p points IH]; intros cb; simpl; [done|].
  destruct (IH (ensure_point cb p)) as (-> & -> & ->).
  unfold ensure_point. destruct (is_absent cb p); [|done].
  by destruct (_current_sequence cb).
Qed.

Lemma extract_points_length (section : option Handle) :
  (length (extract_points' section) <= 1)%nat.
Proof.
  unfold extract_points_from_section. destruct section as [sect|]; simpl; [|lia].
  destruct (is_section_link sect); simpl; [|lia].
  destruct (getOutgoingSet sect); simpl; lia.
Qed.

Lemma select_filter_cases cb (selected from_sect : option Handle) :
  (select_filter' cb selected from_sect).1 = selected
  \/ ((select_filter' cb selected from_sect).1 = None
      /\ _strict_planarity cb = true
      /\ exists from_pnt to_pnt,
          head (extract_points' from_sect) = Some from_pnt
          /\ head (extract_points' selected) = Some to_pnt
          /\ is_planar_link (_constraints (select_filter' cb selected from_sect).2)
                            from_pnt to_pnt = false).
Proof.
  pose proof (select_filter_state cb selected from_sect) as Hstate.
  unfold select_filter in *. destruct selected as [sel|]; [|by left].
  set (cb2 := ensure_points_in_sequence _ (extract_points' (Some sel))) in *.
  assert (_strict_planarity cb2 = _strict_planarity cb) as Hstrict.
  { unfold cb2. destruct (ensure_points_flags (extract_points' (Some sel))
      (ensure_points_in_sequence cb (extract_points' from_sect))) as [-> _].
    by destruct (ensure_points_flags (extract_points' from_sect) cb) as [-> _]. }
  destruct (extract_points' from_sect) as [|from_pnt ?],
    (extract_points' (Some sel)) as [|to_pnt ?]; try by left.
  unfold is_connection_planar in *.
  destruct (is_planar_link (_constraints cb2) from_pnt to_pnt) eqn:Hplanar;
    simpl in *; [by left|].
  rewrite Hstrict in *. destruct (_strict_planarity cb); [|by left].
  right. simpl. split; [done|]. split; [done|].
  exists from_pnt, to_pnt. by rewrite Hplanar.
Qed.

Lemma select_filter_rejects cb (selected from_sect : option Handle)
    (from_pnt to_pnt : Handle) :
  _strict_planarity cb = true ->
  head (extract_points' from_sect) = Some from_pnt ->
  head (extract_points' selected) = Some to_pnt ->
  is_planar_link (_constraints (select_filter' cb selected from_sect).2)
                 from_pnt to_pnt = false ->
  (select_filter' cb selected from_sect).1 = None.
Proof.
  intros Hstrict Hfrom Hto Hplanar.
  rewrite select_filter_state in Hplanar.
  destruct selected as [sel|]; [|done].
  unfold select_filter.
  set (cb2 := ensure_points_in_sequence _ (extract_points' (Some sel))) in *.
  assert (_strict_planarity cb2 = true) as Hstrict2.
  { unfold cb2. destruct (ensure_points_flags (extract_points' (Some sel))
      (ensure_points_in_sequence cb (extract_points' from_sect))) as [-> _].
    by destruct (ensure_points_flags (extract_points' from_sect) cb)
      as [-> _]. }
  destruct (extract_points' from_sect) as [|from_pnt' ?]; [done|].
  destruct (extract_points' (Some sel)) as [|to_pnt' ?]; [done|].
  simpl in Hfrom, Hto. injection Hfrom as ->. injection Hto as ->.
  unfold is_connection_planar. by rewrite Hplanar, Hstrict2.
Qed.

(** X17.  [select] in full: in strict mode it returns no selection
    whenever both sides have a representative point and the connection
    between the two is not planar in the state it leaves; in lenient mode
    it always hands on the collaborator's answer; and those are the only
    two outcomes, so it never invents a selection and never withholds one
    for another reason.  It never touches the links or the mode flags. *)
Theorem select_withholds_only_in_strict_mode cb
    (selected from_sect : option Handle) :
  let result := select_filter' cb selected from_sect in
  (forall from_pnt to_pnt,
      _strict_planarity cb = true ->
      head (extract_points' from_sect) = Some from_pnt ->
      head (extract_points' selected) = Some to_pnt ->
      is_planar_link (_constraints result.2) from_pnt to_pnt = false ->
      result.1 = None)
  /\ (_strict_planarity cb = false -> result.1 = selected)
  /\ (result.1 = selected
      \/ (result.1 = None
          /\ _strict_planarity cb = true
          /\ exists from_pnt to_pnt,
              head (extract_points' from_sect) = Some from_pnt
              /\ head (extract_points' selected) = Some to_pnt
              /\ is_planar_link (_constraints result.2) from_pnt to_pnt
                 = false))
  /\ _links (_constraints result.2) = _links (_constraints cb)
  /\ _strict_planarity result.2 = _strict_planarity cb
  /\ _auto_optimize result.2 = _auto_optimize cb.
Proof.
  simpl. split; [intros from_pnt to_pnt; apply select_filter_rejects|].
  split.
  { intros Hlenient.
    destruct (select_filter_cases cb selected from_sect)
      as [Hsame|(_ & Hstrict & _)]; [done|congruence]. }
  split; [apply select_filter_cases|].
  rewrite select_filter_state. destruct selected as [sel|]; [|done].
  destruct (ensure_points_flags (extract_points' (Some sel))
      (ensure_points_in_sequence cb (extract_points' from_sect)))
    as (-> & -> & ->).
  by destruct (ensure_points_flags (extract_points' from_sect) cb)
    as (-> & -> & ->).
Qed.

(** X18.  On a reachable policy with room for two more points below [2^31],
    a selection that [select] withholds is withheld because of a
    crossing: both representative points are in the sequence by then,
    and the planarity test fails without logging a missing point. *)
Theorem select_rejection_is_a_crossing (ops : list (policy_operation Handle))
    (selected from_sect : option Handle) :
  let cb := policy_run' ops in
  let result := select_filter' cb selected from_sect in
  N.of_nat (length (_current_sequence cb)) + 2 <= 2 ^ 31 ->
  selected <> None ->
  result.1 = None ->
  exists from_pnt to_pnt,
    head (extract_points' from_sect) = Some from_pnt
    /\ head (extract_points' selected) = Some to_pnt
    /\ from_pnt ∈ _current_sequence result.2
    /\ to_pnt ∈ _current_sequence result.2
    /\ is_planar_link_log (_constraints result.2) from_pnt to_pnt
       = (false, []).
Proof.
  simpl. intros Hsize Hsel Hnone.
  destruct (select_filter_cases (policy_run' ops) selected from_sect)
    as [Hsame|(_ & _ & from_pnt & to_pnt & Hfrom & Hto & Hplanar)];
    [congruence|].
  exists from_pnt, to_pnt. split; [done|]. split; [done|].
  rewrite select_filter_state in *. destruct selected as [sel|]; [|done].
  destruct (policy_run_engine ops) as [[eops Hrun] Hsync].
  pose proof (extract_points_length from_sect) as Hlen1.
  pose proof (extract_points_length (Some sel)) as Hlen2.
  destruct (ensure_points_added (extract_points' from_sect) _ eops Hrun Hsync)
    as (added1 & Hadded1 & _ & Hle1 & Hin1); [lia|].
  destruct (ensure_points_engine (extract_points' from_sect) _ eops Hrun Hsync)
    as ([eops1 Hrun1] & Hsync1 & _).
  destruct (ensure_points_added (extract_points' (Some sel)) _ eops1
              Hrun1 Hsync1) as (added2 & Hadded2 & _ & _ & Hin2).
  { rewrite Hadded1, length_app. lia. }
  destruct (ensure_points_engine (extract_points' (Some sel)) _ eops1
              Hrun1 Hsync1) as ([eops2 Hrun2] & Hsync2 & _).
  set (cb1 := ensure_points_in_sequence (policy_run' ops)
                (extract_points' from_sect)) in *.
  set (cb2 := ensure_points_in_sequence cb1 (extract_points' (Some sel))) in *.
  assert (from_pnt ∈ _current_sequence cb1) as Hfrom1.
  { rewrite Hadded1, elem_of_app, Hin1.
    assert (from_pnt ∈ extract_points' from_sect)
      by (destruct (extract_points' from_sect); simplify_eq/=; set_solver).
    destruct (decide (from_pnt ∈ _current_sequence (policy_run' ops))); tauto. }
  assert (from_pnt ∈ _current_sequence cb2) as Hfrom2
    by (rewrite Hadded2; set_solver).
  assert (to_pnt ∈ _current_sequence cb2) as Hto2.
  { rewrite Hadded2, elem_of_app, Hin2.
    assert (to_pnt ∈ extract_points' (Some sel))
      by (destruct (extract_points' (Some sel)); simplify_eq/=; set_solver).
    destruct (decide (to_pnt ∈ _current_sequence cb1)); tauto. }
  split; [done|]. split; [done|].
  rewrite Hsync2 in Hfrom2, Hto2.
  assert (index_consistent (_constraints cb2)) as Hcons
    by (rewrite Hrun2; apply run_consistent).
  assert (is_Some (_position_map (_constraints cb2) !! from_pnt))
    as [fpos Hfpos] by (rewrite Hcons; by apply fill_position_map_present).
  assert (is_Some (_position_map (_constraints cb2) !! to_pnt))
    as [tpos Htpos] by (rewrite Hcons; by apply fill_position_map_present).
  unfold is_planar_link, is_planar_link_log in *.
  rewrite Hfpos, Htpos in *. simpl in *. by rewrite Hplanar.
Qed.

(** X19.  Selection and link creation fit together in strict mode: when
    [select] lets a selection through, [make_link] for the two
    representative points, called in the state [select] left, is
    accepted by the engine and the link count grows by one. *)
Theorem select_then_make_link_registers cb
    (selected from_sect : option Handle)
    (from_con to_con from_pnt to_pnt : Handle) :
  let cb' := (select_filter' cb selected from_sect).2 in
  _strict_planarity cb = true ->
  (select_filter' cb selected from_sect).1 <> None ->
  head (extract_points' from_sect) = Some from_pnt ->
  head (extract_points' selected) = Some to_pnt ->
  is_planar_link (_constraints cb') from_pnt to_pnt = true
  /\ (make_link' cb' from_con to_con from_pnt to_pnt).1
     = materialize base_make_link work_as_add_link
                   from_con to_con from_pnt to_pnt
  /\ get_link_count
       (_constraints (make_link' cb' from_con to_con from_pnt to_pnt).2)
     = get_link_count (_constraints cb') + 1.
Proof.
  simpl. intros Hstrict Hsome Hfrom Hto.
  pose proof (select_filter_state cb selected from_sect) as Hstate.
  assert (is_planar_link (_constraints (select_filter' cb selected from_sect).2)
            from_pnt to_pnt = true) as Hplanar.
  { unfold select_filter in *. destruct selected as [sel|]; [|done].
    set (cb2 := ensure_points_in_sequence _ (extract_points' (Some sel))) in *.
    assert (_strict_planarity cb2 = true) as Hstrict2.
    { unfold cb2. destruct (ensure_points_flags (extract_points' (Some sel))
        (ensure_points_in_sequence cb (extract_points' from_sect))) as [-> _].
      by destruct (ensure_points_flags (extract_points' from_sect) cb)
        as [-> _]. }
    destruct (extract_points' from_sect) as [|from_pnt' ?]; [done|].
    destruct (extract_points' (Some sel)) as [|to_pnt' ?]; [done|].
    simpl in Hfrom, Hto. injection Hfrom as ->. injection Hto as ->.
    unfold is_connection_planar in *. rewrite Hstrict2 in *.
    destruct (is_planar_link (_constraints cb2) from_pnt to_pnt) eqn:Hplanar;
      simpl in *; done. }
  split; [done|].
  set (cb' := (select_filter' cb selected from_sect).2) in *.
  unfold make_link, is_connection_planar, get_link_count. rewrite Hplanar.
  destruct (add_link_cases (_constraints cb') from_pnt to_pnt)
    as [(fp & tp & _ & _ & _ & _ & ->)|[Hno _]]; [|congruence]. simpl.
  destruct (_auto_optimize cb' && _); simpl;
    rewrite ?optimize_sequence_links; simpl;
    rewrite length_app; simpl; split; (done || lia).
Qed.

End PolicyExtras.

(** ** Scenarios on concrete points *)

Section Scenarios.
#[local] Open Scope string_scope.

Example abcd_with_ac_state :
  _sequence abcd_with_ac = ["A"; "B"; "C"; "D"]
  /\ _links abcd_with_ac = [(0, 2)]
  /\ _position_map abcd_with_ac !! "C" = Some 2
  /\ is_planar abcd_with_ac = true.
Proof. by vm_compute. Qed.

(** The link B-D crosses A-C and is rejected; had it been stored anyway,
    the count of crossings would be one. *)
Example abcd_rejects_bd :
  add_link abcd_with_ac "B" "D" = (false, abcd_with_ac)
  /\ count_links [(0, 2); (1, 3)] 0 = 1.
Proof. by vm_compute. Qed.

Example append_add_remove :
  let s := run [AppendPoint "A"; AppendPoint "B"; AddLink "A" "B"] in
  get_link_count s = 1
  /\ get_link_count (remove_link s "A" "B") = 0.
Proof. by vm_compute. Qed.

(** The same planar pair is accepted twice and stored twice. *)
Example add_link_twice :
  _links (run [SetSequence ["A"; "B"]; AddLink "A" "B"; AddLink "B" "A"])
  = [(0, 1); (1, 0)].
Proof. by vm_compute. Qed.

(** On the empty sequence the loop is not entered; on one point it takes
    one pass, whose inner loop is empty. *)
Example optimize_sequence_small :
  optimize_sequence_passes 0 (@run string _ _ []) = Some (run [], 0)
  /\ optimize_sequence_passes 1 (run [AppendPoint "A"])
     = Some (run [AppendPoint "A"], 1).
Proof. by vm_compute. Qed.

(** [index_consistent] is what makes [optimize_sequence] the identity: on
    a record that violates it the pass rebuilds the index. *)
Example optimize_sequence_rebuilds_stale_index :
  _position_map (optimize_sequence stale_index) !! "B" = Some 1
  /\ _position_map stale_index !! "B" = None.
Proof. by vm_compute. Qed.

(** C6 (as stated) fails: on [A, B, C, D] with the link A-C, asking for
    A-Z (Z is not in the sequence) and asking for B-D (which crosses A-C)
    hand the caller the same value. *)
Lemma absent_point_and_crossing_return_the_same :
  ("Z" ∉ _sequence abcd_with_ac)
  /\ _position_map abcd_with_ac !! "B" = Some 1
  /\ _position_map abcd_with_ac !! "D" = Some 3
  /\ links_cross 1 3 0 2 = true
  /\ is_planar_link abcd_with_ac "A" "Z" = false
  /\ is_planar_link abcd_with_ac "B" "D" = false
  /\ is_planar_link abcd_with_ac "A" "Z" = is_planar_link abcd_with_ac "B" "D".
Proof.
  split; [apply (bool_decide_unpack _); by vm_compute|]. by vm_compute.
Qed.

(** C7: in lenient mode the registration that [make_link] attempts is
    lost.  The crossing connection B-D is accepted and a link handle is
    returned, yet the engine still holds one link instead of two. *)
Lemma lenient_make_link_does_not_register_crossing :
  let result :=
    make_link None evaluation_link lenient_policy "B+" "D-" "B" "D" in
  _strict_planarity lenient_policy = false
  /\ is_planar_link (_constraints lenient_policy) "B" "D" = false
  /\ result.1 = Some "EvaluationLink"
  /\ get_link_count (_constraints lenient_policy) = 1
  /\ get_link_count (_constraints result.2) = 1
  /\ get_link_count (_constraints result.2)
     <> get_link_count (_constraints lenient_policy) + 1.
Proof. by vm_compute. Qed.

(** What the lost registration leads to: the engine knows nothing of
    the link B-D that was created, so the link C-E, which crosses it, is
    let through by the strict policy, and the audit still reports a
    planar graph. *)
Example crossing_link_is_forgotten :
  _links (_constraints after_lenient_crossing) = [(0, 2)]
  /\ links_cross 2 4 1 3 = true
  /\ is_connection_planar after_lenient_crossing "C" "E" = true
  /\ (make_link None evaluation_link after_lenient_crossing
                "C+" "E-" "C" "E").1 = Some "EvaluationLink"
  /\ is_planar (_constraints
                  (make_link None evaluation_link after_lenient_crossing
                             "C+" "E-" "C" "E").2) = true.
Proof. by vm_compute. Qed.

(** Witnesses of the conditional theorems. *)

Lemma optimize_sequence_terminates_without_regression_witness :
  (N.to_nat (sequence_size abcd_with_ac * sequence_size abcd_with_ac)
   <= 16)%nat
  /\ exists passes,
      optimize_sequence_passes 16 abcd_with_ac
      = Some (optimize_sequence abcd_with_ac, passes)
      /\ passes <= sequence_size abcd_with_ac * sequence_size abcd_with_ac
      /\ get_crossing_count (optimize_sequence abcd_with_ac)
         <= get_crossing_count abcd_with_ac.
Proof.
  assert (N.to_nat (sequence_size abcd_with_ac * sequence_size abcd_with_ac)
          <= 16)%nat as Hfuel by (vm_compute; lia).
  split; [exact Hfuel|].
  exact (optimize_sequence_terminates_without_regression abcd_with_ac 16 Hfuel).
Defined.

Lemma is_planar_link_absent_point_witness :
  ("A" ∉ _sequence abcd_with_ac \/ "Z" ∉ _sequence abcd_with_ac)
  /\ is_planar_link abcd_with_ac "A" "Z" = false
  /\ is_planar_link_log abcd_with_ac "A" "Z" = (false, [point_not_found]).
Proof.
  assert ("A" ∉ _sequence abcd_with_ac \/ "Z" ∉ _sequence abcd_with_ac)
    as Habsent by (right; apply (bool_decide_unpack _); by vm_compute).
  split; [exact Habsent|].
  exact (is_planar_link_absent_point
           [SetSequence ["A"; "B"; "C"; "D"]; AddLink "A" "C"] "A" "Z" Habsent).
Defined.

Lemma set_sequence_replaces_everything_witness :
  NoDup ["D"; "C"; "B"; "A"]
  /\ _sequence (set_sequence abcd_with_ac ["D"; "C"; "B"; "A"])
     = ["D"; "C"; "B"; "A"]
  /\ (forall (p : string) (i : N),
        _position_map (set_sequence abcd_with_ac ["D"; "C"; "B"; "A"]) !! p
        = Some i
        <-> ["D"; "C"; "B"; "A"] !! N.to_nat i = Some p)
  /\ _links (set_sequence abcd_with_ac ["D"; "C"; "B"; "A"]) = [].
Proof.
  assert (NoDup ["D"; "C"; "B"; "A"]) as Hnd
    by (apply (bool_decide_unpack _); by vm_compute).
  split; [exact Hnd|].
  exact (set_sequence_replaces_everything abcd_with_ac _ Hnd).
Defined.

Lemma add_link_preserves_is_planar_witness :
  (add_link abcd_with_ac "A" "D").1 = true
  /\ is_planar (add_link abcd_with_ac "A" "D").2 = is_planar abcd_with_ac.
Proof.
  assert ((add_link abcd_with_ac "A" "D").1 = true) as Hadd by (by vm_compute).
  split; [exact Hadd|].
  exact (add_link_preserves_is_planar abcd_with_ac "A" "D" Hadd).
Defined.

(** *** The further properties on the concrete points *)

Example get_position_values :
  get_position abcd_with_ac "C" = 2%Z
  /\ get_position abcd_with_ac "Z" = (-1)%Z
  /\ to_int (2 ^ 32 - 1) = (-1)%Z
  /\ to_int (2 ^ 31) = (- 2 ^ 31)%Z.
Proof. by vm_compute. Qed.

(** Both links of the crossing pair are reported once, in order. *)
Example get_crossing_links_of_crossing_record :
  get_crossing_links string_lt crossing_record
  = Some [("A", "C"); ("B", "D"); ("D", "B")]
  /\ get_crossing_count crossing_record = 2.
Proof. by vm_compute. Qed.

Example strict_policy_state :
  _current_sequence strict_policy = ["A"; "B"; "C"; "D"]
  /\ _links (_constraints strict_policy) = [(0, 2)]
  /\ (select_filter no_section no_outgoing strict_policy
                    (Some "D") (Some "B")).1 = None
  /\ (select_filter no_section no_outgoing strict_policy
                    (Some "E") (Some "D")).1 = Some "E"
  /\ _current_sequence
       (select_filter no_section no_outgoing strict_policy
                      (Some "E") (Some "D")).2
     = ["A"; "B"; "C"; "D"; "E"].
Proof. by vm_compute. Qed.

Lemma add_link_then_remove_link_witness :
  (add_link abcd_with_ac "C" "D").1 = true
  /\ remove_link (add_link abcd_with_ac "C" "D").2 "C" "D"
     = remove_link abcd_with_ac "C" "D".
Proof.
  assert ((add_link abcd_with_ac "C" "D").1 = true) as Hadd by (by vm_compute).
  split; [exact Hadd|].
  exact (proj1 (add_link_then_remove_link abcd_with_ac "C" "D" Hadd)).
Defined.

Lemma get_position_reachable_witness :
  sequence_size abcd_with_ac <= 2 ^ 31
  /\ (get_position abcd_with_ac "Z" = (-1)%Z <-> "Z" ∉ _sequence abcd_with_ac).
Proof.
  assert (sequence_size abcd_with_ac <= 2 ^ 31) as Hsize by (by vm_compute).
  split; [exact Hsize|].
  exact (proj1 (get_position_reachable
                  [SetSequence ["A"; "B"; "C"; "D"]; AddLink "A" "C"]
                  "Z" Hsize)).
Defined.

Lemma get_crossing_count_zero_iff_is_planar_witness :
  get_link_count crossing_record < 2 ^ 32
  /\ (get_crossing_count crossing_record = 0
      <-> is_planar crossing_record = true)
  /\ 2 * get_crossing_count crossing_record
     <= get_link_count crossing_record * (get_link_count crossing_record - 1).
Proof.
  assert (get_link_count crossing_record < 2 ^ 32) as Hcount
    by (by vm_compute).
  split; [exact Hcount|].
  exact (get_crossing_count_zero_iff_is_planar crossing_record Hcount).
Defined.

Lemma ensure_points_in_sequence_adds_missing_witness :
  N.of_nat (length (_current_sequence strict_policy))
  + N.of_nat (length ["B"; "E"; "F"]) <= 2 ^ 31
  /\ (forall p : string,
        p ∈ ["B"; "E"; "F"] ->
        is_absent (ensure_points_in_sequence strict_policy ["B"; "E"; "F"]) p
        = false).
Proof.
  assert (N.of_nat (length (_current_sequence strict_policy))
          + N.of_nat (length ["B"; "E"; "F"]) <= 2 ^ 31) as Hsize
    by (by vm_compute).
  split; [exact Hsize|].
  exact (proj1 (proj2 (ensure_points_in_sequence_adds_missing
                         no_section no_outgoing None evaluation_link
                         strict_calls ["B"; "E"; "F"] Hsize))).
Defined.

Lemma find_best_insertion_position_valid_witness :
  N.of_nat (length (_current_sequence strict_policy)) <= 2 ^ 31
  /\ find_best_insertion_position strict_policy "E" "B"
     <= N.of_nat (length (_current_sequence strict_policy)).
Proof.
  assert (N.of_nat (length (_current_sequence strict_policy)) <= 2 ^ 31)
    as Hsize by (by vm_compute).
  split; [exact Hsize|].
  exact (proj1 (find_best_insertion_position_valid
                  no_section no_outgoing None evaluation_link
                  strict_calls "E" "B" Hsize)).
Defined.

Lemma select_rejection_is_a_crossing_witness :
  N.of_nat (length (_current_sequence strict_policy)) + 2 <= 2 ^ 31
  /\ Some "D" <> None
  /\ (select_filter no_section no_outgoing strict_policy
                    (Some "D") (Some "B")).1 = None
  /\ exists from_pnt to_pnt,
      head (extract_points_from_section no_section no_outgoing (Some "B"))
      = Some from_pnt
      /\ head (extract_points_from_section no_section no_outgoing (Some "D"))
         = Some to_pnt
      /\ from_pnt
         ∈ _current_sequence
             (select_filter no_section no_outgoing strict_policy
                            (Some "D") (Some "B")).2
      /\ to_pnt
         ∈ _current_sequence
             (select_filter no_section no_outgoing strict_policy
                            (Some "D") (Some "B")).2
      /\ is_planar_link_log
           (_constraints
              (select_filter no_section no_outgoing strict_policy
                             (Some "D") (Some "B")).2)
           from_pnt to_pnt
         = (false, []).
Proof.
  assert (N.of_nat (length (_current_sequence strict_policy)) + 2 <= 2 ^ 31)
    as Hsize by (by vm_compute).
  assert (Some "D" <> (None : option string)) as Hsel by discriminate.
  assert ((select_filter no_section no_outgoing strict_policy
                         (Some "D") (Some "B")).1 = None) as Hnone
    by (by vm_compute).
  split; [exact Hsize|]. split; [exact Hsel|]. split; [exact Hnone|].
  exact (select_rejection_is_a_crossing
           no_section no_outgoing None evaluation_link
           strict_calls (Some "D") (Some "B") Hsize Hsel Hnone).
Defined.

Lemma select_then_make_link_registers_witness :
  _strict_planarity strict_policy = true
  /\ (select_filter no_section no_outgoing strict_policy
                    (Some "D") (Some "A")).1 <> None
  /\ get_link_count
       (_constraints
          (make_link None evaluation_link
             (select_filter no_section no_outgoing strict_policy
                            (Some "D") (Some "A")).2
             "A+" "D-" "A" "D").2)
     = get_link_count
         (_constraints
            (select_filter no_section no_outgoing strict_policy
                           (Some "D") (Some "A")).2) + 1.
Proof.
  assert (_strict_planarity strict_policy = true) as Hstrict
    by (by vm_compute).
  assert ((select_filter no_section no_outgoing strict_policy
                         (Some "D") (Some "A")).1 <> None) as Hsome
    by (by vm_compute).
  split; [exact Hstrict|]. split; [exact Hsome|].
  exact (proj2 (proj2 (select_then_make_link_registers
                         no_section no_outgoing None evaluation_link
                         strict_policy (Some "D") (Some "A")
                         "A+" "D-" "A" "D" Hstrict Hsome eq_refl eq_refl))).
Defined.

End Scenarios.
